(** * memFS: an in-memory file system keyed by normalized absolute paths

    Shallow embedding of [memFS.cpp] and verification of the properties its
  specification states about path normalization, the path-keyed store,
  the prefix-based directory algorithms and the dump format.

  Conventions of the embedding:
  - [std::string] is [string]; positions and lengths are [nat];
  - [std::unordered_map<std::string, FSEntry>] is [gmap string FSEntry];
    a traversal of the map is a traversal of [map_to_list], and results
    that could depend on the traversal order are stated for every order;
  - the two globals [memoryFileSystem] and [currentDirectory] are the two
    fields of the record [FileSystem], threaded through every operation;
  - [getCurrentDateString()] reads the clock: the date is the parameter
    [now] of the operations that call it;
  - what an operation prints on [std::cerr] is its [Failed] outcome. *)

From Stdlib Require Import Ascii String NArith Lia Bool.
From stdpp Require Import gmap strings list fin_maps.

Local Open Scope char_scope.

(** ** [std::string] operations used by the program *)

Module CppString.

(** [s.find_last_of(c)]: position of the last [c], [None] for [npos]. *)
Fixpoint find_last_of (c : ascii) (s : string) : option nat :=
  match s with
  | EmptyString => None
  | String a s' =>
      match find_last_of c s' with
      | Some i => Some (S i)
      | None => if Ascii.eqb a c then Some 0 else None
      end
  end.

(** [s.find(c) != npos]. *)
Fixpoint contains (c : ascii) (s : string) : bool :=
  match s with
  | EmptyString => false
  | String a s' => Ascii.eqb a c || contains c s'
  end.

(** [s.substr(0, n)]. *)
Fixpoint take (n : nat) (s : string) : string :=
  match n, s with
  | S n', String a s' => String a (take n' s')
  | _, _ => EmptyString
  end.

(** [s.substr(n)], for [n <= s.size()]. *)
Fixpoint drop (n : nat) (s : string) : string :=
  match n, s with
  | S n', String _ s' => drop n' s'
  | _, _ => s
  end.

(** [s.find(p) == 0]: [p] occurs in [s] at position 0. *)
Fixpoint starts_with (p s : string) : bool :=
  match p, s with
  | EmptyString, _ => true
  | String a p', String b s' => Ascii.eqb a b && starts_with p' s'
  | String _ _, EmptyString => false
  end.

(** [s[0]]; for the empty string this is the terminating null character. *)
Definition front (s : string) : ascii :=
  match s with
  | EmptyString => Ascii.zero
  | String a _ => a
  end.

(** [s.back()] of a non-empty string. *)
Fixpoint back (s : string) : ascii :=
  match s with
  | EmptyString => Ascii.zero
  | String a EmptyString => a
  | String _ s' => back s'
  end.

(** [s.pop_back()]. *)
Fixpoint pop_back (s : string) : string :=
  match s with
  | EmptyString => EmptyString
  | String _ EmptyString => EmptyString
  | String a s' => String a (pop_back s')
  end.

Definition empty (s : string) : bool :=
  match s with EmptyString => true | _ => false end.

End CppString.

(** ** Input streams and [std::getline] *)

Module IStream.

(** A string stream: the characters not read yet and the two state bits
    that [std::getline] tests and sets. *)
Record istream := mkIStream { buf : string; eofbit : bool; failbit : bool }.

Definition open (s : string) : istream := mkIStream s false false.

Definition good (st : istream) : bool := negb (eofbit st) && negb (failbit st).

(** Characters up to the first [d]; the rest after that [d], or [None] when
    the end of the buffer came first. *)
Fixpoint read_until (d : ascii) (s : string) : string * option string :=
  match s with
  | EmptyString => (EmptyString, None)
  | String c s' =>
      if Ascii.eqb c d then (EmptyString, Some s')
      else let '(x, r) := read_until d s' in (String c x, r)
  end.

(** [std::getline(st, str, d)], with [old] the value of [str] before the
    call. A stream that is not good fails and leaves [str] alone. Otherwise
    [str] is erased and filled up to the delimiter, which is consumed; the
    end of the buffer sets [eofbit], and [failbit] too when nothing at all
    was extracted. *)
Definition getline (d : ascii) (st : istream) (old : string) : istream * string :=
  if good st then
    match read_until d (buf st) with
    | (x, Some r) => (mkIStream r false false, x)
    | (x, None) => (mkIStream EmptyString true (CppString.empty x), x)
    end
  else (mkIStream (buf st) (eofbit st) true, old).

(** [while (std::getline(st, line, d)) acc = body(line, acc);] The loop
    leaves through the failing call; each earlier call either consumes a
    delimiter or sets [eofbit], so [2 + length (buf st)] rounds are enough
    and [fuel] only makes the recursion structural. *)
Fixpoint while_getline {A} (fuel : nat) (d : ascii) (st : istream)
    (line : string) (body : string → A → A) (acc : A) : A :=
  match fuel with
  | O => acc
  | S fuel' =>
      let '(st', line') := getline d st line in
      if failbit st' then acc
      else while_getline fuel' d st' line' body (body line' acc)
  end.

Definition for_each_line {A} (d : ascii) (s : string)
    (body : string → A → A) (acc : A) : A :=
  while_getline (2 + String.length s) d (open s) EmptyString body acc.

End IStream.

(** ** Data model *)

Inductive EntryType := FILE | DIRECTORY.

Global Instance EntryType_eq_dec : EqDecision EntryType.
Proof. solve_decision. Defined.

Record FSEntry := mkFSEntry {
  data : string;
  sizeInBytes : N;
  creationDate : string;
  modificationDate : string;
  type : EntryType
}.

Global Instance FSEntry_eq_dec : EqDecision FSEntry.
Proof. solve_decision. Defined.

(** The two globals of the program. *)
Record FileSystem := mkFS {
  memoryFileSystem : gmap string FSEntry;
  currentDirectory : string
}.

(** ** Paths *)

Definition is_dot (s : string) : bool := String.eqb s ".".
Definition is_dotdot (s : string) : bool := String.eqb s "..".

(** Body of the component loop of [normalizePath]; [components] is the
    vector, its back being the last element of the list. *)
Definition path_component_step (component : string) (components : list string)
    : list string :=
  if is_dot component then components
  else if is_dotdot component then
    match components with
    | [] => components
    | _ => removelast components
    end
  else if negb (CppString.empty component) then components ++ [component]
  else components.

(** [cwd] is the global [currentDirectory]. For an empty [path], [path[0]]
    is the null character, which [CppString.front] returns. *)
Definition normalizePath (cwd path : string) : string :=
  let normalizedPath :=
    if CppString.empty path || negb (Ascii.eqb (CppString.front path) "/") then
      let base := cwd in
      let base :=
        if negb (String.eqb base "/") && negb (Ascii.eqb (CppString.front path) "/")
        then base +:+ "/" else base in
      base +:+ path
    else path in
  let components :=
    IStream.for_each_line "/" normalizedPath path_component_step [] in
  let rebuilt :=
    foldl (λ acc comp, acc +:+ (comp +:+ "/")) "/"%string components in
  if (1 <? String.length rebuilt)%nat && Ascii.eqb (CppString.back rebuilt) "/"
  then CppString.pop_back rebuilt else rebuilt.

Definition getDirectoryFromPath (path : string) : string :=
  match CppString.find_last_of "/" path with
  | None => "/"%string
  | Some lastSlash => CppString.take lastSlash path
  end.

Definition getFilenameFromPath (path : string) : string :=
  match CppString.find_last_of "/" path with
  | None => path
  | Some lastSlash => CppString.drop (S lastSlash) path
  end.

(** ** The store *)

Abbreviation Store := (gmap string FSEntry).

(** What an operation reports: its success line on [std::cout], or the
    error line it writes to [std::cerr] before giving up. *)
Inductive Diagnostic :=
| DoesNotExist (path : string)
| DoesNotExistOrNotAFile (path : string)
| EntryAlreadyExists (path : string)
| FailedToCreateParents (path : string)
| DirectoryNotEmpty
| DirectoryDoesNotExist (path : string)
| SourceDoesNotExist (path : string)
| DestinationAlreadyExists (path : string)
| CouldNotOpenFile.

Inductive Outcome :=
| Done
| Failed (why : Diagnostic).

Definition succeeded (o : Outcome) : bool :=
  match o with Done => true | Failed _ => false end.

Definition has_type (t : EntryType) (e : FSEntry) : bool :=
  bool_decide (type e = t).

Definition directoryExists (path : string) (m : Store) : bool :=
  match m !! path with
  | Some e => has_type DIRECTORY e
  | None => false
  end.

Definition fileExists (path : string) (m : Store) : bool :=
  match m !! path with
  | Some e => has_type FILE e
  | None => false
  end.

Definition newDirectory (now : string) : FSEntry :=
  mkFSEntry "" 0 now now DIRECTORY.

Definition newFile (now content : string) : FSEntry :=
  mkFSEntry content (N.of_nat (String.length content)) now now FILE.

(** [ensureParentDirectoriesExist] calls itself on the directory part of its
    argument, which is strictly shorter whenever the recursion is reached;
    [fuel] bounds the depth and [S (length path)] is always enough (lemma
    [ensureParents_enough_fuel] below), so the [false] of the first branch
    is never the answer of [ensureParentDirectoriesExist]. *)
Fixpoint ensureParents (fuel : nat) (now path : string) (m : Store)
    : bool * Store :=
  match fuel with
  | O => (false, m)
  | S fuel' =>
      let dirPath := getDirectoryFromPath path in
      if String.eqb dirPath "/" then (true, m)
      else if negb (directoryExists dirPath m) then
        let '(ok, m1) := ensureParents fuel' now dirPath m in
        if negb ok then (false, m1)
        else (true, <[dirPath := newDirectory now]> m1)
      else (true, m)
  end.

Definition ensureParentDirectoriesExist (now path : string) (m : Store)
    : bool * Store :=
  ensureParents (S (String.length path)) now path m.

Definition updateFileContent (now path content : string) (m : Store)
    : bool * Store :=
  match m !! path with
  | Some e =>
      if has_type FILE e then
        (true, <[path := mkFSEntry content (N.of_nat (String.length content))
                            (creationDate e) now (type e)]> m)
      else (false, m)
  | None => (false, m)
  end.

Definition with_store (fs : FileSystem) (m : Store) : FileSystem :=
  mkFS m (currentDirectory fs).

Definition writeContentToFile (now path content : string) (fs : FileSystem)
    : FileSystem * Outcome :=
  let normalizedPath := normalizePath (currentDirectory fs) path in
  let '(ok, m1) :=
    ensureParentDirectoriesExist now normalizedPath (memoryFileSystem fs) in
  if negb ok then (with_store fs m1, Failed (FailedToCreateParents normalizedPath))
  else if fileExists normalizedPath m1 then
    let '(success, m2) := updateFileContent now normalizedPath content m1 in
    (with_store fs m2,
     if success then Done else Failed (DoesNotExistOrNotAFile normalizedPath))
  else
    (with_store fs (<[normalizedPath := newFile now content]> m1), Done).

Definition addNewEntryInternal (now path : string) (isDirectory : bool)
    (fs : FileSystem) : FileSystem * Outcome :=
  let normalizedPath := normalizePath (currentDirectory fs) path in
  match memoryFileSystem fs !! normalizedPath with
  | Some _ => (fs, Failed (EntryAlreadyExists normalizedPath))
  | None =>
      let '(ok, m1) :=
        ensureParentDirectoriesExist now normalizedPath (memoryFileSystem fs) in
      if negb ok then
        (with_store fs m1, Failed (FailedToCreateParents normalizedPath))
      else
        let newEntry :=
          mkFSEntry "" 0 now now (if isDirectory then DIRECTORY else FILE) in
        (with_store fs (<[normalizedPath := newEntry]> m1), Done)
  end.

Definition addNewFile (now path : string) := addNewEntryInternal now path false.
Definition addNewDirectory (now path : string) := addNewEntryInternal now path true.

(** [path == "/" ? "/" : path + "/"], the prefix under which the entries of
    the directory [path] are found. *)
Definition dirPrefix (path : string) : string :=
  if String.eqb path "/" then "/"%string else path +:+ "/".

(** [entry.first != dir && entry.first.find(prefix) == 0] *)
Definition isInside (dir pfx : string) (kv : string * FSEntry) : Prop :=
  kv.1 ≠ dir ∧ CppString.starts_with pfx kv.1 = true.

Global Instance isInside_dec dir pfx kv : Decision (isInside dir pfx kv).
Proof. unfold isInside. apply _. Defined.

Definition eraseAll (paths : list string) (m : Store) : Store :=
  foldl (λ acc p, delete p acc) m paths.

(** The success line is built from [entryIterator->second] after the erase;
    only the wording of the message depends on it. *)
Definition removeEntryInternal (path : string) (recursive : bool)
    (fs : FileSystem) : FileSystem * Outcome :=
  let m := memoryFileSystem fs in
  let normalizedPath := normalizePath (currentDirectory fs) path in
  match m !! normalizedPath with
  | None => (fs, Failed (DoesNotExist normalizedPath))
  | Some entry =>
      if has_type DIRECTORY entry then
        let pfx := dirPrefix normalizedPath in
        let hasContents :=
          bool_decide (Exists (isInside normalizedPath pfx) (map_to_list m)) in
        if hasContents && negb recursive then (fs, Failed DirectoryNotEmpty)
        else
          let m1 :=
            if recursive then
              let pathsToRemove :=
                (filter (isInside normalizedPath pfx) (map_to_list m)).*1 in
              eraseAll pathsToRemove m
            else m in
          (with_store fs (delete normalizedPath m1), Done)
      else (with_store fs (delete normalizedPath m), Done)
  end.

Definition removeFile (path : string) := removeEntryInternal path false.
Definition removeDirectory (path : string) (recursive : bool) :=
  removeEntryInternal path recursive.

(** [parseCdCommand] after the argument count check; [path] is [args[1]]. *)
Definition parseCdCommand (path : string) (fs : FileSystem)
    : FileSystem * Outcome :=
  let targetDir := normalizePath (currentDirectory fs) path in
  if String.eqb targetDir "/" then (mkFS (memoryFileSystem fs) "/", Done)
  else if negb (directoryExists targetDir (memoryFileSystem fs)) then
    (fs, Failed (DirectoryDoesNotExist targetDir))
  else (mkFS (memoryFileSystem fs) targetDir, Done).

Definition initializeFileSystem (now : string) (fs : FileSystem) : FileSystem :=
  match memoryFileSystem fs !! "/"%string with
  | None => with_store fs (<["/"%string := newDirectory now]> (memoryFileSystem fs))
  | Some _ => fs
  end.

(** The state in which [main] enters its command loop. *)
Definition initialFileSystem (now : string) : FileSystem :=
  initializeFileSystem now (mkFS ∅ "/").

(** ** Move and copy *)

(** [newPath = destPrefix + entry.first.substr(sourcePrefix.length())] *)
Definition remapPath (sourcePrefix destPrefix path : string) : string :=
  destPrefix +:+ CppString.drop (String.length sourcePrefix) path.

Definition remapEntry (sourcePrefix destPrefix : string) (kv : string * FSEntry)
    : string * FSEntry :=
  (remapPath sourcePrefix destPrefix kv.1, kv.2).

(** [for (entry : entries) memoryFileSystem[entry.first] = entry.second;] *)
Definition insertAll (entries : list (string * FSEntry)) (m : Store) : Store :=
  foldl (λ acc kv, <[kv.1 := kv.2]> acc) m entries.

(** [entry.first.find(sourcePrefix) == 0] *)
Definition hasPrefix (pfx : string) (kv : string * FSEntry) : Prop :=
  CppString.starts_with pfx kv.1 = true.

Global Instance hasPrefix_dec pfx kv : Decision (hasPrefix pfx kv).
Proof. unfold hasPrefix. apply _. Defined.

(** [parseMoveCommand] after the argument count check, with [src = args[1]]
    and [dst = args[2]]. *)
Definition parseMoveCommand (now src dst : string) (fs : FileSystem)
    : FileSystem * Outcome :=
  let sourcePath := normalizePath (currentDirectory fs) src in
  let destPath := normalizePath (currentDirectory fs) dst in
  let m := memoryFileSystem fs in
  match m !! sourcePath with
  | None => (fs, Failed (SourceDoesNotExist sourcePath))
  | Some sourceEntry =>
      match m !! destPath with
      | Some _ => (fs, Failed (DestinationAlreadyExists destPath))
      | None =>
          if has_type DIRECTORY sourceEntry then
            let '(fs1, created) := addNewEntryInternal now destPath true fs in
            if negb (succeeded created) then (fs1, created)
            else
              let m1 := memoryFileSystem fs1 in
              let sourcePrefix := dirPrefix sourcePath in
              let destPrefix := dirPrefix destPath in
              let entriesToMove :=
                remapEntry sourcePrefix destPrefix <$>
                  filter (isInside sourcePath sourcePrefix) (map_to_list m1) in
              let m2 := insertAll entriesToMove m1 in
              let pathsToRemove :=
                (filter (hasPrefix sourcePrefix) (map_to_list m2)).*1 in
              let m3 := eraseAll pathsToRemove m2 in
              (with_store fs1 (delete sourcePath m3), Done)
          else
            (with_store fs (delete sourcePath (<[destPath := sourceEntry]> m)),
             Done)
      end
  end.

Definition freshDates (now : string) (e : FSEntry) : FSEntry :=
  mkFSEntry (data e) (sizeInBytes e) now now (type e).

(** [parseCopyCommand] after the argument count check. The directory branch
    of the program inserts into the map inside the loop that traverses it;
    the embedding traverses the entries present when the loop starts. *)
Definition parseCopyCommand (now src dst : string) (fs : FileSystem)
    : FileSystem * Outcome :=
  let sourcePath := normalizePath (currentDirectory fs) src in
  let destPath := normalizePath (currentDirectory fs) dst in
  let m := memoryFileSystem fs in
  match m !! sourcePath with
  | None => (fs, Failed (SourceDoesNotExist sourcePath))
  | Some sourceEntry =>
      match m !! destPath with
      | Some _ => (fs, Failed (DestinationAlreadyExists destPath))
      | None =>
          let destEntry := freshDates now sourceEntry in
          if has_type DIRECTORY sourceEntry then
            let '(fs1, created) := addNewEntryInternal now destPath true fs in
            if negb (succeeded created) then (fs1, created)
            else
              let m1 := memoryFileSystem fs1 in
              let sourcePrefix := dirPrefix sourcePath in
              let destPrefix := dirPrefix destPath in
              let copies :=
                (λ kv, (remapPath sourcePrefix destPrefix kv.1,
                        freshDates now kv.2)) <$>
                  filter (isInside sourcePath sourcePrefix) (map_to_list m1) in
              (with_store fs1 (insertAll copies m1), Done)
          else (with_store fs (<[destPath := destEntry]> m), Done)
      end
  end.

(** ** The dump format *)

Definition LF : ascii := Ascii.ascii_of_nat 10.

(** [outFile << n] for a [size_t]: decimal digits, most significant first.
    [fuel] bounds the number of digits. *)
Fixpoint decimal_digits (fuel : nat) (n : N) (acc : string) : string :=
  match fuel with
  | O => acc
  | S fuel' =>
      let acc' := String (ascii_of_N (48 + n mod 10)) acc in
      if (n <? 10)%N then acc' else decimal_digits fuel' (n / 10) acc'
  end.

Definition to_decimal (n : N) : string :=
  decimal_digits (S (N.to_nat (N.log2 n))) n EmptyString.

Definition typeStr (e : FSEntry) : string :=
  if has_type FILE e then "FILE"%string else "DIR"%string.

(** One record of the dump, with its newline. *)
Definition dumpRecord (kv : string * FSEntry) : string :=
  typeStr kv.2 +:+ "|" +:+ kv.1 +:+ "|" +:+ to_decimal (sizeInBytes kv.2) +:+ "|"
    +:+ creationDate kv.2 +:+ "|" +:+ modificationDate kv.2 +:+ "|"
    +:+ (if has_type FILE kv.2 then data kv.2 else EmptyString)
    +:+ String LF EmptyString.

Definition dumpHeader (now : string) : string :=
  "# Memory File System Dump - " +:+ now +:+ String LF EmptyString
    +:+ "# Format: <type>|<path>|<size>|<created>|<modified>|<data>"
    +:+ String LF EmptyString.

(** What [parseSaveCommand] writes when the map is traversed in the order
    [entries]. *)
Definition dumpText (now : string) (entries : list (string * FSEntry)) : string :=
  foldl (λ out kv, out +:+ dumpRecord kv) (dumpHeader now) entries.

(** [parseSaveCommand] on a file that can be opened: the store is left as it
    is and the text goes to the file. *)
Definition parseSaveCommand (now : string) (fs : FileSystem) : string :=
  dumpText now (map_to_list (memoryFileSystem fs)).

(** [std::stoull(s)]: white space, an optional sign, then decimal digits up
    to the first other character. [None] stands for the exception thrown
    when there is no digit ([std::invalid_argument]) or when the digits do
    not fit 64 bits ([std::out_of_range]); a minus sign negates modulo
    [2^64]. *)
Definition isspace (c : ascii) : bool :=
  let n := N_of_ascii c in ((9 <=? n) && (n <=? 13) || (n =? 32))%N.

Fixpoint skip_spaces (s : string) : string :=
  match s with
  | String c s' => if isspace c then skip_spaces s' else s
  | EmptyString => s
  end.

Definition digit_value (c : ascii) : option N :=
  let n := N_of_ascii c in
  if ((48 <=? n) && (n <=? 57))%N then Some (n - 48)%N else None.

Fixpoint read_digits (s : string) (acc : option N) : option N :=
  match s with
  | String c s' =>
      match digit_value c with
      | Some d => read_digits s' (Some (10 * default 0 acc + d))%N
      | None => acc
      end
  | EmptyString => acc
  end.

Definition stoull (s : string) : option N :=
  let s1 := skip_spaces s in
  let '(negative, s2) :=
    match s1 with
    | String "-" r => (true, r)
    | String "+" r => (false, r)
    | _ => (false, s1)
    end in
  match read_digits s2 None with
  | None => None
  | Some n =>
      if (n <? 2 ^ 64)%N
      then Some (if negative then (2 ^ 64 - n) mod 2 ^ 64 else n)%N
      else None
  end.

(** Body of the loop of [parseLoadCommand] for one line of the file. The
    accumulator is the store being rebuilt, [None] once [std::stoull] has
    thrown: nothing catches the exception and the process ends. *)
Definition loadLine (line : string) (acc : option Store) : option Store :=
  match acc with
  | None => None
  | Some m =>
      if CppString.empty line || Ascii.eqb (CppString.front line) "#" then Some m
      else
        let ss := IStream.open line in
        let '(ss, typeField) := IStream.getline "|" ss EmptyString in
        if IStream.failbit ss then Some m else
        let '(ss, path) := IStream.getline "|" ss EmptyString in
        if IStream.failbit ss then Some m else
        let '(ss, sizeStr) := IStream.getline "|" ss EmptyString in
        if IStream.failbit ss then Some m else
        let '(ss, created) := IStream.getline "|" ss EmptyString in
        if IStream.failbit ss then Some m else
        let '(ss, modified) := IStream.getline "|" ss EmptyString in
        if IStream.failbit ss then Some m else
        let '(_, content) := IStream.getline LF ss EmptyString in
        match stoull sizeStr with
        | None => None
        | Some size =>
            Some (<[path := mkFSEntry content size created modified
                              (if String.eqb typeField "FILE" then FILE
                               else DIRECTORY)]> m)
        end
  end.

(** The store rebuilt from the text of a dump file; [None] when loading
    ends in an uncaught exception. *)
Definition loadText (text : string) : option Store :=
  IStream.for_each_line LF text loadLine (Some ∅).

(** [parseLoadCommand file]: [file] is the text of the named file, [None]
    when it cannot be opened. The result is [None] when the process ends in
    an uncaught exception. *)
Definition parseLoadCommand (file : option string) (fs : FileSystem)
    : option (FileSystem * Outcome) :=
  match file with
  | None => Some (fs, Failed CouldNotOpenFile)
  | Some text =>
      match loadText text with
      | None => None
      | Some m => Some (with_store fs m, Done)
      end
  end.

(** ** The command loop *)

(** The commands of [main] that can change the state, one item at a time,
    with the tokens of the command line as arguments: [create], [write] and
    [delete] with [-n] run one locked call per item in an order the
    scheduler chooses, which is some sequence of these. *)
Inductive Command :=
| Create (path : string)
| Mkdir (path : string)
| Write (path content : string)
| Delete (path : string)
| Rmdir (recursive : bool) (path : string)
| Mv (src dst : string)
| Cp (src dst : string)
| Cd (path : string)
| Load (file : option string).

(** One round of the loop at date [now]; [None] when the process ends in an
    uncaught exception. *)
Definition step (now : string) (c : Command) (fs : FileSystem)
    : option FileSystem :=
  match c with
  | Create path => Some (addNewFile now path fs).1
  | Mkdir path => Some (addNewDirectory now path fs).1
  | Write path content => Some (writeContentToFile now path content fs).1
  | Delete path => Some (removeFile path fs).1
  | Rmdir recursive path => Some (removeDirectory path recursive fs).1
  | Mv src dst => Some (parseMoveCommand now src dst fs).1
  | Cp src dst => Some (parseCopyCommand now src dst fs).1
  | Cd path => Some (parseCdCommand path fs).1
  | Load file => fst <$> parseLoadCommand file fs
  end.

(** The states the program can be in: the initial one and those reached by
    its commands. *)
Inductive reachable : FileSystem → Prop :=
| reachable_init now : reachable (initialFileSystem now)
| reachable_step now c fs fs' :
    reachable fs → step now c fs = Some fs' → reachable fs'.

(** ** The specification's wording *)

Module Spec.

(** Splitting on a separator: [n] separators give [n + 1] segments. *)
Fixpoint split_on (d : ascii) (s : string) : list string :=
  match s with
  | EmptyString => [EmptyString]
  | String c s' =>
      if Ascii.eqb c d then EmptyString :: split_on d s'
      else
        match split_on d s' with
        | seg :: segs => String c seg :: segs
        | [] => [String c EmptyString]
        end
  end.

(** A path that is empty or does not start with [/] is resolved relative to
    [cwd], with a single separator unless [cwd] is the root. *)
Definition resolve (cwd path : string) : string :=
  if CppString.starts_with "/" path then path
  else if String.eqb cwd "/" then cwd +:+ path
  else cwd +:+ "/" +:+ path.

(** Empty and [.] segments are dropped; [..] pops the last retained segment
    if there is one. *)
Fixpoint retain (segments retained : list string) : list string :=
  match segments with
  | [] => retained
  | seg :: rest =>
      if String.eqb seg "" || String.eqb seg "." then retain rest retained
      else if String.eqb seg ".." then retain rest (removelast retained)
      else retain rest (retained ++ [seg])
  end.

(** [/seg1/seg2/...], and [/] for no segment. *)
Definition reassemble (segments : list string) : string :=
  match segments with
  | [] => "/"%string
  | _ => foldr (λ seg out, "/" +:+ seg +:+ out) EmptyString segments
  end.

Definition normalize (path cwd : string) : string :=
  reassemble (retain (split_on "/" (resolve cwd path)) []).

(** A canonical path: absolute, no empty, [.] or [..] segment, and so no
    trailing slash, the root [/] apart. *)
Definition canonical (path : string) : bool :=
  match path with
  | String "/" EmptyString => true
  | String "/" rest =>
      forallb (λ seg, negb (String.eqb seg "" || String.eqb seg "."
                            || String.eqb seg ".."))
              (split_on "/" rest)
  | _ => false
  end.

End Spec.

(** ** Auxiliary definitions of the proofs *)

(** The lines a [std::getline] loop sees: the segments between delimiters,
    without the empty one after a final delimiter. *)
Definition lines_of (d : ascii) (s : string) : list string :=
  let segs := Spec.split_on d s in
  if String.eqb (List.last segs EmptyString) "" then removelast segs else segs.

(** [/seg1/seg2/...] for a list of segments, empty for no segment. *)
Definition joined (segs : list string) : string :=
  foldr (λ seg out, "/" +:+ seg +:+ out) EmptyString segs.

(** A segment that normalization retains. *)
Definition retained_segment (seg : string) : Prop :=
  CppString.contains "/" seg = false ∧
  String.eqb seg "" = false ∧ String.eqb seg "." = false ∧
  String.eqb seg ".." = false.

(** The store the directory branch of [parseMoveCommand] builds once the
    destination directory has been created. *)
Definition movedStore (now : string) (m : Store) (sp dp : string) : Store :=
  let m1 := <[dp := newDirectory now]> m in
  let entriesToMove :=
    remapEntry (dirPrefix sp) (dirPrefix dp) <$>
      filter (isInside sp (dirPrefix sp)) (map_to_list m1) in
  let m2 := insertAll entriesToMove m1 in
  let pathsToRemove := (filter (hasPrefix (dirPrefix sp)) (map_to_list m2)).*1 in
  delete sp (eraseAll pathsToRemove m2).

(** The renames the move collects before it changes the store. *)
Definition moveEntries (now : string) (m : Store) (sp dp : string)
    : list (string * FSEntry) :=
  remapEntry (dirPrefix sp) (dirPrefix dp) <$>
    filter (isInside sp (dirPrefix sp))
      (map_to_list (<[dp := newDirectory now]> m)).

(** Where a key of the old store is found in the new one. *)
Definition moveKey (sp dp k : string) : string :=
  if decide (k = sp) then dp
  else if CppString.starts_with (dirPrefix sp) k
       then remapPath (dirPrefix sp) (dirPrefix dp) k
  else k.

(** One record of the dump without its newline, field by field. *)
Definition recordLine (kv : string * FSEntry) : string :=
  typeStr kv.2 +:+
  String "|" (kv.1 +:+
  String "|" (to_decimal (sizeInBytes kv.2) +:+
  String "|" (creationDate kv.2 +:+
  String "|" (modificationDate kv.2 +:+
  String "|" (if has_type FILE kv.2 then data kv.2 else EmptyString))))).

(** An entry that the dump format can carry: the separator and the newline
    do not occur in its path and dates, the newline does not occur in its
    content, a directory has no content, and the size is a [size_t]. *)
Definition dumpable (kv : string * FSEntry) : Prop :=
  CppString.contains "|" kv.1 = false ∧ CppString.contains LF kv.1 = false ∧
  CppString.contains "|" (creationDate kv.2) = false ∧
  CppString.contains LF (creationDate kv.2) = false ∧
  CppString.contains "|" (modificationDate kv.2) = false ∧
  CppString.contains LF (modificationDate kv.2) = false ∧
  CppString.contains LF (data kv.2) = false ∧
  (type kv.2 = DIRECTORY → data kv.2 = EmptyString) ∧
  (sizeInBytes kv.2 < 2 ^ 64)%N.

Global Instance dumpable_dec kv : Decision (dumpable kv).
Proof. unfold dumpable. apply _. Defined.

(** The records of a dump, after its header. *)
Definition dumpBody (entries : list (string * FSEntry)) : string :=
  foldr (λ kv out, dumpRecord kv +:+ out) EmptyString entries.

(** ** Example states *)

Definition write_onto_directory_example : FileSystem :=
  (addNewDirectory "30/10/2026" "/d" (initialFileSystem "30/10/2026")).1.

Definition nonempty_directory_example : FileSystem :=
  (writeContentToFile "30/10/2026" "/a/f" "x" (initialFileSystem "30/10/2026")).1.

Definition remove_root_example : FileSystem :=
  (writeContentToFile "30/10/2026" "/a/f" "x"
     (with_store (initialFileSystem "30/10/2026")
        {[ "/"%string := newDirectory "30/10/2026";
           "/a"%string := newDirectory "30/10/2026" ]})).1.

Definition cd_example : FileSystem :=
  (addNewDirectory "30/10/2026" "/a" (initialFileSystem "30/10/2026")).1.

Definition move_example : FileSystem :=
  (writeContentToFile "30/10/2026" "/a/f" "x"
     (addNewDirectory "30/10/2026" "/a" (initialFileSystem "30/10/2026")).1).1.

Definition separator_example : FileSystem :=
  (addNewFile "30/10/2026" "a|7" (initialFileSystem "30/10/2026")).1.

Definition through_file_example : FileSystem :=
  (writeContentToFile "30/10/2026" "/a" "old" (initialFileSystem "30/10/2026")).1.

Definition create_delete_example : FileSystem :=
  (addNewDirectory "30/10/2026" "/a" (initialFileSystem "30/10/2026")).1.

Definition changed_directory_example : FileSystem :=
  (parseCdCommand "a"
     (addNewDirectory "30/10/2026" "/a" (initialFileSystem "30/10/2026")).1).1.

(** ** The other operations *)

(** [tokenize(input, delimiter)]. [rest] is [input.substr(begin)]: looking
    for the delimiter from [begin] on is reading [rest] up to it, and
    [begin < input.size()] says that [rest] is not empty. Each round
    consumes a delimiter, so [S (length input)] rounds are enough. *)
Fixpoint tokenize_loop (fuel : nat) (delimiter : ascii) (rest : string)
    (tokens : list string) : list string :=
  match fuel with
  | O => tokens
  | S fuel' =>
      match IStream.read_until delimiter rest with
      | (token, Some rest') =>
          tokenize_loop fuel' delimiter rest'
            (if CppString.empty token then tokens else tokens ++ [token])
      | (_, None) =>
          if CppString.empty rest then tokens else tokens ++ [rest]
      end
  end.

Definition tokenize (delimiter : ascii) (input : string) : list string :=
  tokenize_loop (S (String.length input)) delimiter input [].

(** [readContentFromFile]: the content it prints, or its error line. *)
Definition readContentFromFile (path : string) (fs : FileSystem)
    : string + Diagnostic :=
  let normalizedPath := normalizePath (currentDirectory fs) path in
  match memoryFileSystem fs !! normalizedPath with
  | Some e =>
      if has_type FILE e then inl (data e)
      else inr (DoesNotExistOrNotAFile normalizedPath)
  | None => inr (DoesNotExistOrNotAFile normalizedPath)
  end.

(** [relativePath.find('/') == npos] for an entry inside the directory. *)
Definition isDirectChild (dir pfx : string) (kv : string * FSEntry) : Prop :=
  isInside dir pfx kv ∧
  CppString.contains "/" (CppString.drop (String.length pfx) kv.1) = false.

Global Instance isDirectChild_dec dir pfx kv : Decision (isDirectChild dir pfx kv).
Proof. unfold isDirectChild. apply _. Defined.

(** The vector [entries] that [listDirectory] collects, in the order of the
    traversal, or its error line. The flag [detailed] only chooses how the
    vector is printed. *)
Definition listDirectory (path : string) (fs : FileSystem)
    : list (string * FSEntry) + Diagnostic :=
  let m := memoryFileSystem fs in
  let normalizedPath := normalizePath (currentDirectory fs) path in
  if negb (directoryExists normalizedPath m) then
    inr (DirectoryDoesNotExist normalizedPath)
  else
    let pfx := dirPrefix normalizedPath in
    inl ((λ kv, (CppString.drop (String.length pfx) kv.1, kv.2)) <$>
           filter (isDirectChild normalizedPath pfx) (map_to_list m)).

(** [parseInfoCommand] after the argument count check: the entry whose
    fields it prints and, for a directory, the number of direct children;
    [None] for its error line. *)
Definition parseInfoCommand (path : string) (fs : FileSystem)
    : option (FSEntry * option nat) :=
  let m := memoryFileSystem fs in
  let normalizedPath := normalizePath (currentDirectory fs) path in
  match m !! normalizedPath with
  | None => None
  | Some e =>
      if has_type DIRECTORY e then
        let pfx := dirPrefix normalizedPath in
        let childCount :=
          foldl (λ count kv,
                   if decide (isDirectChild normalizedPath pfx kv)
                   then S count else count)
                0 (map_to_list m) in
        Some (e, Some childCount)
      else Some (e, None)
  end.

(** [s.find(pattern) != npos] for a pattern that is a string. *)
Fixpoint contains_sub (pattern s : string) : bool :=
  CppString.starts_with pattern s ||
  match s with
  | EmptyString => false
  | String _ s' => contains_sub pattern s'
  end.

(** [parseSearchCommand] after the argument count check: the lines it
    prints, as kind and path, in the order of the traversal. *)
Definition parseSearchCommand (pattern : string) (fs : FileSystem)
    : list (EntryType * string) :=
  (λ kv, (type kv.2, kv.1)) <$>
    filter (λ kv, contains_sub pattern (getFilenameFromPath kv.1) = true)
      (map_to_list (memoryFileSystem fs)).

(** The totals of [displaySystemStats]: files, directories, and the sum of
    the file sizes in the 64 bits of a [size_t]. The two counters count
    entries of the map, which are far fewer than [2^64]. *)
Definition statsStep (acc : nat * nat * N) (kv : string * FSEntry)
    : nat * nat * N :=
  let '(totalFiles, totalDirs, totalSize) := acc in
  if has_type FILE kv.2
  then (S totalFiles, totalDirs, ((totalSize + sizeInBytes kv.2) mod 2 ^ 64)%N)
  else (totalFiles, S totalDirs, totalSize).

Definition displaySystemStats (fs : FileSystem) : nat * nat * N :=
  foldl statsStep (0, 0, 0%N) (map_to_list (memoryFileSystem fs)).

(** ** Well-formed entries *)






(** ** Lines of a dump file *)

(** The line [T|p|sz|c|mo|dat]. *)
Definition sixFields (T p sz c mo dat : string) : string :=
  T +:+ String "|" (p +:+ String "|" (sz +:+ String "|" (c +:+
    String "|" (mo +:+ String "|" dat)))).

(** The line [T|p|sz|c|mo]. *)
Definition fiveFields (T p sz c mo : string) : string :=
  T +:+ String "|" (p +:+ String "|" (sz +:+ String "|" (c +:+ String "|" mo))).

(** * Verification *)

(** ** Strings *)

Section Strings.

Implicit Types (s p r : string) (c d : ascii) (n : nat).

Lemma append_cons a s r : String a s +:+ r = String a (s +:+ r).
Proof. reflexivity. Qed.

Lemma append_nil_l s : "" +:+ s = s.
Proof. reflexivity. Qed.

Lemma append_empty_r s : s +:+ "" = s.
Proof. induction s as [|a s IH]; [done | by rewrite append_cons, IH]. Qed.

Lemma append_assoc s1 s2 s3 : (s1 +:+ s2) +:+ s3 = s1 +:+ (s2 +:+ s3).
Proof. induction s1 as [|a s1 IH]; [done | by rewrite !append_cons, IH]. Qed.

Lemma append_length s1 s2 :
  String.length (s1 +:+ s2) = String.length s1 + String.length s2.
Proof. induction s1 as [|a s1 IH]; [done | rewrite append_cons; simpl; by rewrite IH]. Qed.

Lemma append_inv_head s r1 r2 : s +:+ r1 = s +:+ r2 → r1 = r2.
Proof. induction s as [|a s IH]; [done | rewrite !append_cons; intros [= H]; auto]. Qed.

Lemma append_inv_tail s1 s2 r : s1 +:+ r = s2 +:+ r → s1 = s2.
Proof.
  revert s2. induction s1 as [|a s1 IH]; intros [|b s2] H.
  - done.
  - apply (f_equal String.length) in H. rewrite !append_length in H. simpl in H. lia.
  - apply (f_equal String.length) in H. rewrite !append_length in H. simpl in H. lia.
  - rewrite !append_cons in H. injection H as -> H. f_equal. by apply IH.
Qed.

Lemma ascii_eqb_refl c : Ascii.eqb c c = true.
Proof. by apply Ascii.eqb_eq. Qed.

Lemma starts_with_app p r : CppString.starts_with p (p +:+ r) = true.
Proof.
  induction p as [|a p IH]; [done |].
  rewrite append_cons. simpl. by rewrite ascii_eqb_refl.
Qed.

Lemma starts_with_inv p s :
  CppString.starts_with p s = true →
  s = p +:+ CppString.drop (String.length p) s.
Proof.
  revert s. induction p as [|a p IH]; intros [|b s]; simpl; try done.
  intros [->%Ascii.eqb_eq H]%andb_true_iff. rewrite append_cons. f_equal. by apply IH.
Qed.

Lemma starts_with_iff p s :
  CppString.starts_with p s = true ↔ ∃ r, s = p +:+ r.
Proof.
  split.
  - intros H. eexists. by apply starts_with_inv.
  - intros [r ->]. apply starts_with_app.
Qed.

Lemma drop_app p r : CppString.drop (String.length p) (p +:+ r) = r.
Proof. induction p as [|a p IH]; [by destruct r | by rewrite append_cons]. Qed.

Lemma starts_with_length p s :
  CppString.starts_with p s = true → String.length p ≤ String.length s.
Proof. intros [r ->]%starts_with_iff. rewrite append_length. lia. Qed.

Lemma starts_with_trans p q s :
  CppString.starts_with p q = true → CppString.starts_with q s = true →
  CppString.starts_with p s = true.
Proof.
  intros [r1 ->]%starts_with_iff [r2 ->]%starts_with_iff.
  rewrite append_assoc. apply starts_with_app.
Qed.

(** Two prefixes of one string are comparable. *)
Lemma starts_with_comparable p q s :
  CppString.starts_with p s = true → CppString.starts_with q s = true →
  CppString.starts_with p q = true ∨ CppString.starts_with q p = true.
Proof.
  revert q s. induction p as [|a p IH]; intros [|b q] [|c s]; simpl; auto; try done.
  intros [->%Ascii.eqb_eq Hp]%andb_true_iff [->%Ascii.eqb_eq Hq]%andb_true_iff.
  rewrite ascii_eqb_refl. simpl. eauto.
Qed.

Lemma take_length n s : String.length (CppString.take n s) ≤ n.
Proof.
  revert s. induction n as [|n IH]; intros [|a s]; simpl; try lia.
  specialize (IH s). lia.
Qed.

Lemma find_last_of_lt c s i :
  CppString.find_last_of c s = Some i → i < String.length s.
Proof.
  revert i. induction s as [|a s IH]; simpl; intros i; [done |].
  destruct (CppString.find_last_of c s) as [j|].
  - intros [= <-]. specialize (IH j eq_refl). lia.
  - destruct (Ascii.eqb a c); intros [= <-]. lia.
Qed.

End Strings.

(** The directory part is strictly shorter than the path, unless the path
    has no slash at all and the answer is ["/"]. *)
Lemma getDirectoryFromPath_shorter path :
  getDirectoryFromPath path = "/"%string ∨
  String.length (getDirectoryFromPath path) < String.length path.
Proof.
  unfold getDirectoryFromPath.
  destruct (CppString.find_last_of "/" path) as [i|] eqn:E; [right | by left].
  apply find_last_of_lt in E. pose proof (take_length i path). lia.
Qed.

(** ** The store primitives *)

Section StorePrimitives.

Implicit Types (m : Store) (k path : string) (e : FSEntry).

Lemma ensureParents_enough_fuel fuel now path m :
  String.length path < fuel → (ensureParents fuel now path m).1 = true.
Proof.
  revert path m. induction fuel as [|fuel IH]; intros path m Hlen; [lia |].
  simpl. destruct (String.eqb _ "/") eqn:Eroot; [done |].
  destruct (directoryExists _ m); simpl; [done |].
  destruct (ensureParents fuel now _ m) as [ok m1] eqn:Erec.
  assert (ok = true) as ->; [| done].
  change ok with (ok, m1).1. rewrite <- Erec. apply IH.
  destruct (getDirectoryFromPath_shorter path) as [Hr | Hlt]; [| lia].
  rewrite Hr in Eroot. done.
Qed.

Lemma ensureParentDirectoriesExist_true now path m :
  (ensureParentDirectoriesExist now path m).1 = true.
Proof. apply ensureParents_enough_fuel. lia. Qed.

(** Only keys strictly shorter than [path] are written. *)
Lemma ensureParents_lookup_long fuel now path m k :
  String.length path ≤ String.length k →
  (ensureParents fuel now path m).2 !! k = m !! k.
Proof.
  revert path m. induction fuel as [|fuel IH]; intros path m Hlen; [done |].
  simpl. destruct (String.eqb _ "/") eqn:Eroot; [done |].
  destruct (directoryExists _ m); simpl; [done |].
  destruct (getDirectoryFromPath_shorter path) as [Hr | Hlt].
  { rewrite Hr in Eroot. done. }
  specialize (IH (getDirectoryFromPath path) m ltac:(lia)).
  destruct (ensureParents fuel now _ m) as [ok m1]. simpl in *.
  destruct ok; simpl; [| done].
  rewrite lookup_insert_ne; [done |]. intros Heq. rewrite Heq in Hlt. lia.
Qed.

(** When the directory part is already a directory nothing is written. *)
Lemma ensureParentDirectoriesExist_noop now path m :
  directoryExists (getDirectoryFromPath path) m = true →
  ensureParentDirectoriesExist now path m = (true, m).
Proof.
  intros H. unfold ensureParentDirectoriesExist. simpl. rewrite H. simpl.
  by destruct (String.eqb _ _).
Qed.

Lemma lookup_eraseAll paths m k :
  eraseAll paths m !! k = if decide (k ∈ paths) then None else m !! k.
Proof.
  unfold eraseAll. revert m. induction paths as [|p paths IH]; intros m; simpl.
  - destruct (decide (k ∈ [])) as [Hin | _]; [by apply elem_of_nil in Hin | done].
  - rewrite IH. destruct (decide (k ∈ paths)) as [Hin | Hnin].
    + by rewrite decide_True by (by apply elem_of_cons; right).
    + destruct (decide (k = p)) as [-> | Hne].
      * rewrite lookup_delete_eq. by rewrite decide_True by apply list_elem_of_here.
      * rewrite lookup_delete_ne by done.
        rewrite decide_False; [done |]. by intros [? | ?]%elem_of_cons.
Qed.

Lemma lookup_insertAll_notin entries m k :
  k ∉ entries.*1 → insertAll entries m !! k = m !! k.
Proof.
  unfold insertAll. revert m.
  induction entries as [|[k' e'] entries IH]; intros m Hnin; simpl; [done |].
  rewrite fmap_cons in Hnin. simpl in Hnin.
  apply not_elem_of_cons in Hnin as [Hne Hnin].
  rewrite IH by done. by rewrite lookup_insert_ne.
Qed.

Lemma lookup_insertAll_in entries m k e :
  NoDup entries.*1 → (k, e) ∈ entries → insertAll entries m !! k = Some e.
Proof.
  unfold insertAll. revert m.
  induction entries as [|[k' e'] entries IH]; intros m Hnd Hin; simpl.
  - by apply elem_of_nil in Hin.
  - rewrite fmap_cons in Hnd. apply NoDup_cons in Hnd as [Hk' Hnd].
    apply elem_of_cons in Hin as [[= -> ->] | Hin].
    + change (foldl _ ?a entries) with (insertAll entries a).
      rewrite lookup_insertAll_notin by done. apply lookup_insert_eq.
    + by apply IH.
Qed.

Lemma directoryExists_true path m :
  directoryExists path m = true ↔ ∃ e, m !! path = Some e ∧ type e = DIRECTORY.
Proof.
  unfold directoryExists, has_type. destruct (m !! path) as [e|].
  - rewrite bool_decide_eq_true. split.
    + intros Ht. by exists e.
    + by intros (e' & [= <-] & Ht).
  - split; [done | by intros (e' & Hl & _)].
Qed.

Lemma fileExists_directory path m e :
  m !! path = Some e → type e = DIRECTORY → fileExists path m = false.
Proof.
  intros Hl Ht. unfold fileExists, has_type. rewrite Hl, Ht.
  by apply bool_decide_eq_false.
Qed.

End StorePrimitives.

(** Absolute paths are normalized without looking at the current directory. *)
Lemma normalizePath_root cwd : normalizePath cwd "/" = "/"%string.
Proof. reflexivity. Qed.

(** Keys collected by a traversal of the map that keeps the entries
    satisfying [P]. *)
Lemma elem_of_filter_keys (P : string * FSEntry → Prop)
    `{!∀ kv, Decision (P kv)} (m : Store) (k : string) :
  k ∈ (filter P (map_to_list m)).*1 ↔ ∃ e, m !! k = Some e ∧ P (k, e).
Proof.
  rewrite list_elem_of_fmap. split.
  - intros [[k' e] [-> [HP Hin%elem_of_map_to_list]%list_elem_of_filter]].
    by exists e.
  - intros (e & Hl & HP). exists (k, e). split; [done |].
    apply list_elem_of_filter. split; [done |]. by apply elem_of_map_to_list.
Qed.

(** Erasing the collected keys keeps exactly the entries that fail [P]. *)
Lemma eraseAll_filter_keys (P : string * FSEntry → Prop)
    `{!∀ kv, Decision (P kv)} (m : Store) :
  eraseAll (filter P (map_to_list m)).*1 m = filter (λ kv, ¬ P kv) m.
Proof.
  apply map_eq. intros k. rewrite lookup_eraseAll.
  destruct (decide (k ∈ _)) as [Hin | Hnin].
  - apply elem_of_filter_keys in Hin as (e & Hl & HP).
    symmetry. apply map_lookup_filter_None. right. intros e' Hl'.
    rewrite Hl in Hl'. injection Hl' as <-. simpl. by intros HnP.
  - destruct (m !! k) as [e|] eqn:Hl.
    + symmetry. apply map_lookup_filter_Some. split; [done |].
      simpl. intros HP. apply Hnin. apply elem_of_filter_keys. eauto.
    + symmetry. apply map_lookup_filter_None. by left.
Qed.

(** ** The claims *)

(** C7 (the code differs). The directory part of a top-level path such as
    [/a] is the empty string, not [/]: the last slash is at index 0 and the
    function returns the zero characters before it. It answers [/] only for a
    path without any slash. *)
Theorem getDirectoryFromPath_top_level (name : string) :
  CppString.contains "/" name = false →
  getDirectoryFromPath ("/" +:+ name) = ""%string.
Proof.
  intros Hname. unfold getDirectoryFromPath. rewrite append_cons, append_nil_l. simpl.
  assert (CppString.find_last_of "/" name = None) as ->.
  { induction name as [|a name IH]; simpl in *; [done |].
    apply orb_false_iff in Hname as [Ha Hname]. by rewrite IH, Ha. }
  done.
Qed.

(** The directory part of [/a]. *)
Lemma getDirectoryFromPath_top_level_witness :
  getDirectoryFromPath "/a" = ""%string.
Proof. apply (getDirectoryFromPath_top_level "a"). reflexivity. Defined.

(** C4 (the code differs). Writing to a path that exists as a directory is
    not rejected: the call succeeds and the directory entry is replaced by a
    file entry holding the content. *)
Theorem writeContentToFile_replaces_directory
    (now path content : string) (fs : FileSystem) (e : FSEntry) :
  let target := normalizePath (currentDirectory fs) path in
  memoryFileSystem fs !! target = Some e → type e = DIRECTORY →
  (writeContentToFile now path content fs).2 = Done ∧
  memoryFileSystem (writeContentToFile now path content fs).1 !! target
    = Some (newFile now content).
Proof.
  intros target Hl Ht. unfold writeContentToFile. fold target.
  pose proof (ensureParentDirectoriesExist_true now target (memoryFileSystem fs)) as Hok.
  pose proof (ensureParents_lookup_long (S (String.length target)) now target
                (memoryFileSystem fs) target (le_n _)) as Hsame.
  fold (ensureParentDirectoriesExist now target (memoryFileSystem fs)) in Hsame.
  destruct (ensureParentDirectoriesExist now target _) as [ok m1].
  simpl in Hok, Hsame. subst ok. simpl.
  rewrite (fileExists_directory target m1 e) by congruence.
  simpl. split; [done |]. apply lookup_insert_eq.
Qed.

(** After [mkdir /d], [write /d x] turns [/d] into a file. *)
Lemma writeContentToFile_replaces_directory_witness :
  (writeContentToFile "31/10/2026" "/d" "x" write_onto_directory_example).2 = Done ∧
  memoryFileSystem
    (writeContentToFile "31/10/2026" "/d" "x" write_onto_directory_example).1
    !! "/d"%string = Some (newFile "31/10/2026" "x").
Proof.
  apply (writeContentToFile_replaces_directory "31/10/2026" "/d" "x"
           write_onto_directory_example (newDirectory "30/10/2026"));
    reflexivity.
Defined.

(** C1 (the code differs). Creating the top-level directory [/a] in the
    initial store is a reachable state whose store has the empty string as a
    key, which is not a canonical absolute path. And moving the file [/f] to
    [/x/y] is a reachable state in which [/x/y] is present while its parent
    [/x] is not: the file branch of the move inserts the destination without
    the parents that the directory branch ensures. *)
Theorem create_top_level_stores_empty_key (now : string) :
  let fs := (addNewDirectory now "/a" (initialFileSystem now)).1 in
  let fs' :=
    (parseMoveCommand now "/f" "/x/y"
       (addNewFile now "/f" (initialFileSystem now)).1).1 in
  (reachable fs ∧
   memoryFileSystem fs !! ""%string = Some (newDirectory now) ∧
   Spec.canonical "" = false) ∧
  (reachable fs' ∧
   memoryFileSystem fs' !! "/x/y"%string = Some (newFile now "") ∧
   memoryFileSystem fs' !! "/x"%string = None).
Proof.
  intros fs fs'. split; (split; [| split; reflexivity]).
  - apply (reachable_step now (Mkdir "/a") (initialFileSystem now)).
    + apply reachable_init.
    + reflexivity.
  - apply (reachable_step now (Mv "/f" "/x/y")
             (addNewFile now "/f" (initialFileSystem now)).1).
    + apply (reachable_step now (Create "/f") (initialFileSystem now)).
      * apply reachable_init.
      * reflexivity.
    + reflexivity.
Qed.

(** C10. Changing to a path that normalizes to [/] succeeds and sets the
    current directory to [/] whatever the store holds, even when it has no
    [/] entry; for any other target the change succeeds exactly when the
    target is present in the store as a directory, and then the current
    directory becomes the target. The store is never modified. *)
Theorem parseCdCommand_root_unchecked (path : string) (fs : FileSystem) :
  let target := normalizePath (currentDirectory fs) path in
  let result := parseCdCommand path fs in
  memoryFileSystem result.1 = memoryFileSystem fs ∧
  (target = "/"%string →
     result.2 = Done ∧ currentDirectory result.1 = "/"%string) ∧
  (target ≠ "/"%string →
     (result.2 = Done ↔ directoryExists target (memoryFileSystem fs) = true) ∧
     (result.2 = Done → currentDirectory result.1 = target) ∧
     (result.2 ≠ Done → result.1 = fs)).
Proof.
  intros target result. subst result. unfold parseCdCommand. fold target.
  destruct (String.eqb target "/") eqn:Eroot.
  - apply String.eqb_eq in Eroot. simpl. split; [done |]. split; [done |].
    intros Hne. by destruct Hne.
  - apply String.eqb_neq in Eroot.
    destruct (directoryExists target (memoryFileSystem fs)) eqn:Edir; simpl.
    + split; [done |]. split; [done |]. intros _. by repeat split.
    + split; [done |]. split; [done |]. intros _. repeat split; done.
Qed.

(** With an empty store, [cd /] still succeeds and [cd /a] does not. *)
Lemma parseCdCommand_root_unchecked_witness :
  (parseCdCommand "/" (mkFS ∅ "/x")).2 = Done ∧
  currentDirectory (parseCdCommand "/" (mkFS ∅ "/x")).1 = "/"%string.
Proof.
  apply (parseCdCommand_root_unchecked "/" (mkFS ∅ "/x")). reflexivity.
Defined.

(** C6. Removing, without the recursive flag, a path that exists as a
    directory and has at least one entry under its prefix fails with the
    directory-not-empty error and returns the state it was given. *)
Theorem removeEntryInternal_nonempty_directory
    (path child : string) (fs : FileSystem) (e : FSEntry) :
  let target := normalizePath (currentDirectory fs) path in
  memoryFileSystem fs !! target = Some e → type e = DIRECTORY →
  is_Some (memoryFileSystem fs !! child) → child ≠ target →
  CppString.starts_with (dirPrefix target) child = true →
  removeEntryInternal path false fs = (fs, Failed DirectoryNotEmpty).
Proof.
  intros target Hl Ht [e' Hchild] Hne Hpre.
  unfold removeEntryInternal. fold target. rewrite Hl.
  unfold has_type at 1. rewrite bool_decide_eq_true_2 by done.
  rewrite bool_decide_eq_true_2; [done |].
  apply Exists_exists. exists (child, e'). split.
  - by apply elem_of_map_to_list.
  - by split.
Qed.

(** After [write /a/f x], [rmdir /a] is refused. *)
Lemma removeEntryInternal_nonempty_directory_witness :
  removeEntryInternal "/a" false nonempty_directory_example
    = (nonempty_directory_example, Failed DirectoryNotEmpty).
Proof.
  apply (removeEntryInternal_nonempty_directory "/a" "/a/f"
           nonempty_directory_example (newDirectory "30/10/2026")).
  - reflexivity.
  - reflexivity.
  - vm_compute. eauto.
  - discriminate.
  - reflexivity.
Defined.

(** C9, as the code has it. The claim fails on a reachable store: after
    [mkdir /a] the store holds the key [""], which the root prefix does not
    match, so the recursive removal of [/] leaves that entry behind; and a
    second removal of [/] finds no root and fails. *)
Lemma remove_root_leaves_entries :
  let fs := (addNewDirectory "30/10/2026" "/a" (initialFileSystem "30/10/2026")).1 in
  let fs' := (removeEntryInternal "/" true fs).1 in
  memoryFileSystem fs' = {[ ""%string := newDirectory "30/10/2026" ]} ∧
  memoryFileSystem fs' ≠ ∅ ∧
  removeEntryInternal "/" true fs' = (fs', Failed (DoesNotExist "/")).
Proof.
  intros fs fs'.
  assert (memoryFileSystem fs' = {[ ""%string := newDirectory "30/10/2026" ]}) as Hfs'.
  { vm_compute. reflexivity. }
  split; [done |]. split.
  - rewrite Hfs'. apply insert_non_empty.
  - reflexivity.
Qed.

(** C9, amended. When the path normalizes to [/] and [/] is present as a
    directory, the recursive removal succeeds and erases every entry whose
    key starts with [/], the root entry included: what is left are the
    entries whose key does not start with [/], so a store all of whose keys
    start with [/] is left empty. The root is not protected. *)
Theorem removeEntryInternal_root_recursive
    (path : string) (fs : FileSystem) (e : FSEntry) :
  normalizePath (currentDirectory fs) path = "/"%string →
  memoryFileSystem fs !! "/"%string = Some e → type e = DIRECTORY →
  let result := removeEntryInternal path true fs in
  result.2 = Done ∧
  memoryFileSystem result.1
    = filter (λ kv, ¬ hasPrefix "/" kv) (memoryFileSystem fs) ∧
  ((∀ k, is_Some (memoryFileSystem fs !! k) → CppString.starts_with "/" k = true) →
   memoryFileSystem result.1 = ∅).
Proof.
  intros Hnorm Hl Ht result. subst result.
  unfold removeEntryInternal. rewrite Hnorm, Hl.
  unfold has_type. rewrite bool_decide_eq_true_2 by done.
  rewrite andb_false_r. simpl.
  change (dirPrefix "/") with "/"%string.
  rewrite eraseAll_filter_keys.
  assert (delete "/"%string
            (filter (λ kv, ¬ isInside "/" "/" kv) (memoryFileSystem fs))
          = filter (λ kv, ¬ hasPrefix "/" kv) (memoryFileSystem fs)) as Heq.
  { apply map_eq. intros k. destruct (decide (k = "/"%string)) as [-> | Hne].
    - rewrite lookup_delete_eq. symmetry. apply map_lookup_filter_None.
      right. intros e' _ Hn. by apply Hn.
    - rewrite lookup_delete_ne by done.
      destruct (memoryFileSystem fs !! k) as [e'|] eqn:Hk.
      + destruct (decide (hasPrefix "/" (k, e'))) as [Hp | Hnp].
        * transitivity (@None FSEntry); [| symmetry].
          -- apply map_lookup_filter_None. right. intros e'' Hk' Hn.
             apply Hn. by split.
          -- apply map_lookup_filter_None. right. intros e'' Hk' Hn.
             by apply Hn.
        * transitivity (Some e'); [| symmetry].
          -- apply map_lookup_filter_Some. split; [done |].
             intros [_ Hp]. by apply Hnp.
          -- by apply map_lookup_filter_Some.
      + transitivity (@None FSEntry); [| symmetry];
          apply map_lookup_filter_None; by left. }
  split; [done |]. split; [done |].
  intros Hall. rewrite Heq. apply map_empty. intros k.
  apply map_lookup_filter_None.
  destruct (memoryFileSystem fs !! k) as [e'|] eqn:Hk; [right | by left].
  intros e'' Hk' Hn. apply Hn. unfold hasPrefix. simpl. apply Hall. by rewrite Hk.
Qed.

(** A store whose keys all start with [/] is emptied; the path given
    normalizes to [/]. *)
Lemma removeEntryInternal_root_recursive_witness :
  (removeEntryInternal "/a/../." true remove_root_example).2 = Done ∧
  memoryFileSystem (removeEntryInternal "/a/../." true remove_root_example).1
    = filter (λ kv, ¬ hasPrefix "/" kv) (memoryFileSystem remove_root_example) ∧
  ((∀ k, is_Some (memoryFileSystem remove_root_example !! k) →
         CppString.starts_with "/" k = true) →
   memoryFileSystem (removeEntryInternal "/a/../." true remove_root_example).1 = ∅).
Proof.
  apply (removeEntryInternal_root_recursive "/a/../." remove_root_example
           (newDirectory "30/10/2026")); reflexivity.
Defined.

(** ** The current directory *)

Ltac case_branches :=
  repeat match goal with
    | |- context [match ?x with _ => _ end] => destruct x eqn:?; simpl; try done
    end.

Lemma addNewEntryInternal_cwd now path isDirectory fs :
  currentDirectory (addNewEntryInternal now path isDirectory fs).1
    = currentDirectory fs.
Proof. unfold addNewEntryInternal. case_branches. Qed.

Lemma writeContentToFile_cwd now path content fs :
  currentDirectory (writeContentToFile now path content fs).1 = currentDirectory fs.
Proof. unfold writeContentToFile. case_branches. Qed.

Lemma removeEntryInternal_cwd path recursive fs :
  currentDirectory (removeEntryInternal path recursive fs).1 = currentDirectory fs.
Proof. unfold removeEntryInternal. case_branches. Qed.

Lemma parseMoveCommand_cwd now src dst fs :
  currentDirectory (parseMoveCommand now src dst fs).1 = currentDirectory fs.
Proof.
  unfold parseMoveCommand.
  pose proof (addNewEntryInternal_cwd now
                (normalizePath (currentDirectory fs) dst) true fs) as Hadd.
  case_branches; by rewrite <- Hadd, ?Heqp.
Qed.

Lemma parseCopyCommand_cwd now src dst fs :
  currentDirectory (parseCopyCommand now src dst fs).1 = currentDirectory fs.
Proof.
  unfold parseCopyCommand.
  pose proof (addNewEntryInternal_cwd now
                (normalizePath (currentDirectory fs) dst) true fs) as Hadd.
  case_branches; by rewrite <- Hadd, ?Heqp.
Qed.

Lemma parseLoadCommand_cwd file fs fs' o :
  parseLoadCommand file fs = Some (fs', o) →
  currentDirectory fs' = currentDirectory fs.
Proof.
  unfold parseLoadCommand. destruct file as [text|].
  - destruct (loadText text); [| done]. by intros [= <- <-].
  - by intros [= <- <-].
Qed.

(** C8, as the code has it. The claim fails on a reachable state: after
    [mkdir /a], [cd /a] and [rmdir /a] the current directory is still [/a],
    which is neither the root nor a key of the store. *)
Lemma currentDirectory_dangles_after_rmdir :
  let now := "30/10/2026"%string in
  ∃ fs1 fs2 fs3,
    step now (Mkdir "/a") (initialFileSystem now) = Some fs1 ∧
    step now (Cd "/a") fs1 = Some fs2 ∧
    step now (Rmdir false ".") fs2 = Some fs3 ∧
    reachable fs3 ∧
    currentDirectory fs3 = "/a"%string ∧
    memoryFileSystem fs3 !! "/a"%string = None.
Proof.
  intros now. do 3 eexists.
  split; [reflexivity |]. split; [reflexivity |]. split; [reflexivity |].
  split; [| split; reflexivity].
  eapply (reachable_step now (Rmdir false ".")); [| reflexivity].
  eapply (reachable_step now (Cd "/a")); [| reflexivity].
  eapply (reachable_step now (Mkdir "/a")); [| reflexivity].
  apply reachable_init.
Qed.

(** C8, amended. The current directory is changed by the directory-change
    command only, which leaves the store alone and sets the current
    directory to the normalized target after finding it to be [/] or a
    directory of the store at that moment. No other command changes the
    current directory, whatever it removes from the store. *)
Theorem currentDirectory_changed_only_by_cd
    (now : string) (c : Command) (fs fs' : FileSystem) :
  step now c fs = Some fs' →
  currentDirectory fs' ≠ currentDirectory fs →
  ∃ path,
    c = Cd path ∧
    memoryFileSystem fs' = memoryFileSystem fs ∧
    currentDirectory fs' = normalizePath (currentDirectory fs) path ∧
    (currentDirectory fs' = "/"%string ∨
     directoryExists (currentDirectory fs') (memoryFileSystem fs') = true).
Proof.
  intros Hstep Hcwd. destruct c; simpl in Hstep;
    unfold addNewFile, addNewDirectory, removeFile, removeDirectory in Hstep.
  - injection Hstep as <-. by rewrite addNewEntryInternal_cwd in Hcwd.
  - injection Hstep as <-. by rewrite addNewEntryInternal_cwd in Hcwd.
  - injection Hstep as <-. by rewrite writeContentToFile_cwd in Hcwd.
  - injection Hstep as <-. by rewrite removeEntryInternal_cwd in Hcwd.
  - injection Hstep as <-. by rewrite removeEntryInternal_cwd in Hcwd.
  - injection Hstep as <-. by rewrite parseMoveCommand_cwd in Hcwd.
  - injection Hstep as <-. by rewrite parseCopyCommand_cwd in Hcwd.
  - injection Hstep as <-. exists path. split; [done |].
    revert Hcwd. unfold parseCdCommand.
    destruct (String.eqb _ "/") eqn:Eroot; simpl.
    + apply String.eqb_eq in Eroot. intros _. rewrite Eroot. auto.
    + destruct (directoryExists _ _) eqn:Edir; simpl; [auto | done].
  - destruct (parseLoadCommand file fs) as [[fs1 o]|] eqn:Hload; [| done].
    injection Hstep as <-. apply parseLoadCommand_cwd in Hload. done.
Qed.

(** After [mkdir /a], [cd a/./b/..] changes the current directory to [/a]. *)
Lemma currentDirectory_changed_only_by_cd_witness :
  ∃ path,
    Cd "a/./b/.." = Cd path ∧
    memoryFileSystem (parseCdCommand "a/./b/.." cd_example).1
      = memoryFileSystem cd_example ∧
    currentDirectory (parseCdCommand "a/./b/.." cd_example).1
      = normalizePath (currentDirectory cd_example) path ∧
    (currentDirectory (parseCdCommand "a/./b/.." cd_example).1 = "/"%string ∨
     directoryExists (currentDirectory (parseCdCommand "a/./b/.." cd_example).1)
       (memoryFileSystem (parseCdCommand "a/./b/.." cd_example).1) = true).
Proof.
  apply (currentDirectory_changed_only_by_cd "30/10/2026" (Cd "a/./b/..")
           cd_example (parseCdCommand "a/./b/.." cd_example).1).
  - reflexivity.
  - vm_compute. discriminate.
Defined.

(** ** Reading lines *)

Section GetLine.

Context (d : ascii).
Implicit Types (s x r : string).

Lemma split_on_nonempty s : Spec.split_on d s ≠ [].
Proof.
  destruct s as [|c s]; simpl; [done |].
  destruct (Ascii.eqb c d); [done |]. by destruct (Spec.split_on d s).
Qed.

Lemma read_until_eof s x :
  IStream.read_until d s = (x, None) → Spec.split_on d s = [x].
Proof.
  revert x. induction s as [|c s IH]; simpl; intros x.
  - by intros [= <-].
  - destruct (Ascii.eqb c d); [done |].
    destruct (IStream.read_until d s) as [x' r'] eqn:E.
    intros [= <- ->]. by rewrite (IH x' eq_refl).
Qed.

Lemma read_until_delimiter s x r :
  IStream.read_until d s = (x, Some r) →
  Spec.split_on d s = x :: Spec.split_on d r ∧
  s = x +:+ String d r ∧ CppString.contains d x = false.
Proof.
  revert x. induction s as [|c s IH]; simpl; intros x; [done |].
  destruct (Ascii.eqb c d) eqn:Ec.
  - apply Ascii.eqb_eq in Ec as ->. by intros [= <- <-].
  - destruct (IStream.read_until d s) as [x' r'] eqn:E.
    intros [= <- ->]. destruct (IH x' eq_refl) as (-> & Hs & Hx).
    split; [done |]. rewrite append_cons, <- Hs. simpl. by rewrite Ec.
Qed.

Lemma read_until_app x r :
  CppString.contains d x = false →
  IStream.read_until d (x +:+ String d r) = (x, Some r).
Proof.
  induction x as [|c x IH]; intros Hx.
  - simpl. by rewrite ascii_eqb_refl.
  - simpl in Hx. apply orb_false_iff in Hx as [Hc Hx].
    rewrite append_cons. simpl. by rewrite Hc, (IH Hx).
Qed.

Lemma read_until_no_delimiter x :
  CppString.contains d x = false → IStream.read_until d x = (x, None).
Proof.
  induction x as [|c x IH]; intros Hx; [done |].
  simpl in Hx. apply orb_false_iff in Hx as [Hc Hx].
  simpl. by rewrite Hc, (IH Hx).
Qed.

Lemma lines_of_cons x segs :
  segs ≠ [] →
  (if String.eqb (List.last (x :: segs) EmptyString) ""
   then removelast (x :: segs) else x :: segs)
  = x :: (if String.eqb (List.last segs EmptyString) ""
          then removelast segs else segs).
Proof. destruct segs; [done |]. intros _. simpl. by destruct (String.eqb _ _). Qed.

(** A [std::getline] loop over the text [s] runs its body on [lines_of s],
    in order, provided the fuel covers the length of the text. *)
Lemma while_getline_lines {A} (body : string → A → A) fuel s line acc :
  2 + String.length s ≤ fuel →
  IStream.while_getline fuel d (IStream.open s) line body acc
    = foldl (λ a l, body l a) acc (lines_of d s).
Proof.
  revert s line acc. induction fuel as [|fuel IH]; intros s line acc Hfuel; [lia |].
  simpl. unfold IStream.getline. simpl.
  destruct (IStream.read_until d s) as [x [r|]] eqn:E; simpl.
  - apply read_until_delimiter in E as (Hsplit & Hs & _).
    unfold IStream.open in IH. rewrite IH.
    + unfold lines_of. rewrite Hsplit.
      rewrite lines_of_cons by apply split_on_nonempty. done.
    + subst s. rewrite append_length in Hfuel. simpl in Hfuel. lia.
  - apply read_until_eof in E. unfold lines_of. rewrite E. simpl.
    destruct x as [|c x]; simpl; [done |].
    destruct fuel as [|fuel]; [simpl in Hfuel; lia |]. done.
Qed.

Lemma for_each_line_lines {A} (body : string → A → A) s acc :
  IStream.for_each_line d s body acc = foldl (λ a l, body l a) acc (lines_of d s).
Proof. unfold IStream.for_each_line. by apply while_getline_lines. Qed.

(** [lines_of] is [split_on] up to one trailing empty segment. *)
Lemma lines_of_split s :
  lines_of d s = Spec.split_on d s ∨ lines_of d s ++ [EmptyString] = Spec.split_on d s.
Proof.
  unfold lines_of. destruct (String.eqb _ "") eqn:E; [right | by left].
  apply String.eqb_eq in E.
  pose proof (split_on_nonempty s) as Hne.
  rewrite <- E at 1. symmetry. by apply app_removelast_last.
Qed.

End GetLine.

(** ** Path normalization *)

Section Normalize.

Implicit Types (s p seg : string) (segs kept : list string).

Lemma path_component_loop_retain segs kept :
  foldl (λ a l, path_component_step l a) kept segs = Spec.retain segs kept.
Proof.
  revert kept. induction segs as [|seg segs IH]; intros kept; simpl; [done |].
  rewrite IH. unfold path_component_step, is_dot, is_dotdot.
  destruct (String.eqb seg "") eqn:Eempty.
  { apply String.eqb_eq in Eempty as ->. done. }
  assert (CppString.empty seg = false) as -> by by destruct seg.
  destruct (String.eqb seg "."); [done |].
  destruct (String.eqb seg ".."); [by destruct kept | done].
Qed.

Lemma retain_app segs1 segs2 kept :
  Spec.retain (segs1 ++ segs2) kept = Spec.retain segs2 (Spec.retain segs1 kept).
Proof.
  revert kept. induction segs1 as [|seg segs1 IH]; intros kept; simpl; [done |].
  destruct (_ || _); [done |]. by destruct (String.eqb _ _).
Qed.

(** The component loop of the program computes the retained segments of the
    specification. *)
Lemma components_retain s :
  IStream.for_each_line "/" s path_component_step []
    = Spec.retain (Spec.split_on "/" s) [].
Proof.
  rewrite for_each_line_lines, path_component_loop_retain.
  destruct (lines_of_split "/" s) as [-> | <-]; [done |].
  by rewrite retain_app.
Qed.

Lemma resolve_eq cwd path :
  (if CppString.empty path || negb (Ascii.eqb (CppString.front path) "/") then
     (if negb (String.eqb cwd "/") && negb (Ascii.eqb (CppString.front path) "/")
      then cwd +:+ "/" else cwd) +:+ path
   else path)
  = Spec.resolve cwd path.
Proof.
  unfold Spec.resolve. destruct path as [|c path].
  - simpl. destruct (String.eqb cwd "/"); simpl; [done | by rewrite append_assoc].
  - cbn [CppString.empty CppString.front CppString.starts_with orb].
    rewrite andb_true_r, (Ascii.eqb_sym c "/").
    destruct (Ascii.eqb "/" c); cbn [negb andb]; [done |].
    rewrite andb_true_r.
    destruct (String.eqb cwd "/"); cbn [negb]; [done | by rewrite append_assoc].
Qed.

Lemma rebuild_joined p segs :
  foldl (λ acc comp, acc +:+ (comp +:+ "/")) (p +:+ "/") segs
    = p +:+ joined segs +:+ "/".
Proof.
  revert p. induction segs as [|seg segs IH]; intros p; simpl; [done |].
  replace ((p +:+ "/") +:+ seg +:+ "/") with ((p +:+ "/" +:+ seg) +:+ "/")
    by by rewrite !append_assoc.
  rewrite IH. by rewrite !append_assoc.
Qed.

Lemma back_app_char s c : CppString.back (s +:+ String c "") = c.
Proof.
  induction s as [|a s IH]; [done |]. rewrite append_cons. simpl.
  destruct (s +:+ String c "") eqn:E; [| done].
  apply (f_equal String.length) in E. rewrite append_length in E. simpl in E. lia.
Qed.

Lemma pop_back_app_char s c : CppString.pop_back (s +:+ String c "") = s.
Proof.
  induction s as [|a s IH]; [done |]. rewrite append_cons. simpl.
  destruct (s +:+ String c "") eqn:E; [| by rewrite IH].
  apply (f_equal String.length) in E. rewrite append_length in E. simpl in E. lia.
Qed.

Lemma rebuild_reassemble segs :
  (let rebuilt := foldl (λ acc comp, acc +:+ (comp +:+ "/")) "/"%string segs in
   if (1 <? String.length rebuilt)%nat && Ascii.eqb (CppString.back rebuilt) "/"
   then CppString.pop_back rebuilt else rebuilt)
  = Spec.reassemble segs.
Proof.
  simpl. pose proof (rebuild_joined "" segs) as H. rewrite !append_nil_l in H.
  rewrite H. destruct segs as [|seg segs]; [done |].
  rewrite back_app_char, pop_back_app_char, ascii_eqb_refl, andb_true_r.
  assert (1 < String.length (joined (seg :: segs) +:+ "/")) as Hlen.
  { simpl. rewrite !append_length. simpl. lia. }
  apply Nat.ltb_lt in Hlen. rewrite Hlen. done.
Qed.

Lemma normalizePath_normalize cwd path :
  normalizePath cwd path = Spec.normalize path cwd.
Proof.
  unfold normalizePath, Spec.normalize.
  rewrite resolve_eq, components_retain. apply rebuild_reassemble.
Qed.

End Normalize.

(** C3. [normalizePath] computes what the specification describes: a path
    that does not start with [/] is resolved against the current directory,
    empty and [.] segments are dropped, [..] pops the last retained segment
    and does nothing at the root, and the result is reassembled from the
    root, so it always starts with [/]. The three examples of the
    specification evaluate as stated. *)
Theorem normalizePath_correct :
  (∀ cwd path, normalizePath cwd path = Spec.normalize path cwd) ∧
  (∀ cwd path, CppString.starts_with "/" (normalizePath cwd path) = true) ∧
  (∀ cwd, normalizePath cwd "/.." = "/"%string) ∧
  normalizePath "/x" "a/b/../c" = "/x/a/c"%string ∧
  normalizePath "/a/b" "../../etc" = "/etc"%string ∧
  normalizePath "/a" "../../../x" = "/x"%string.
Proof.
  split; [apply normalizePath_normalize |]. split.
  - intros cwd path. rewrite normalizePath_normalize. unfold Spec.normalize.
    by destruct (Spec.retain _ _).
  - repeat split; reflexivity.
Qed.

(** *** Normalizing twice *)

Section NormalizeTwice.

Implicit Types (s seg : string) (segs kept : list string).

Lemma split_on_no_delimiter d s :
  Forall (λ seg, CppString.contains d seg = false) (Spec.split_on d s).
Proof.
  induction s as [|c s IH]; simpl.
  - by constructor.
  - destruct (Ascii.eqb c d) eqn:Ec; [by constructor |].
    destruct (Spec.split_on d s) as [|seg segs].
    + constructor; [| done]. simpl. by rewrite Ec.
    + apply Forall_cons in IH as [Hseg Hsegs].
      constructor; [| done]. simpl. by rewrite Ec.
Qed.

Lemma Forall_removelast {A} (P : A → Prop) (l : list A) :
  Forall P l → Forall P (removelast l).
Proof.
  induction 1 as [|x l Hx Hl IH]; simpl; [done |].
  destruct l; [done | by constructor].
Qed.

Lemma retain_retained segs kept :
  Forall (λ seg, CppString.contains "/" seg = false) segs →
  Forall retained_segment kept →
  Forall retained_segment (Spec.retain segs kept).
Proof.
  intros Hsegs. revert kept.
  induction Hsegs as [|seg segs Hseg _ IH]; intros kept Hkept; simpl; [done |].
  destruct (String.eqb seg "") eqn:E1; simpl; [by apply IH |].
  destruct (String.eqb seg ".") eqn:E2; simpl; [by apply IH |].
  destruct (String.eqb seg "..") eqn:E3.
  - apply IH. by apply Forall_removelast.
  - apply IH. apply Forall_app. split; [done |]. by repeat constructor.
Qed.

Lemma split_on_app d x r :
  CppString.contains d x = false →
  Spec.split_on d (x +:+ String d r) = x :: Spec.split_on d r.
Proof.
  intros Hx. apply (read_until_app d x r) in Hx.
  by apply read_until_delimiter in Hx as (H & _ & _).
Qed.

Lemma split_on_single d x :
  CppString.contains d x = false → Spec.split_on d x = [x].
Proof. intros Hx. by apply read_until_eof, read_until_no_delimiter. Qed.

Lemma retain_joined seg segs kept :
  Forall retained_segment (seg :: segs) →
  Spec.retain (Spec.split_on "/" (seg +:+ joined segs)) kept
    = kept ++ seg :: segs.
Proof.
  revert seg kept. induction segs as [|seg' segs IH]; intros seg kept Hall.
  - apply Forall_cons in Hall as [(Hs & H0 & H1 & H2) _].
    simpl. rewrite append_empty_r, split_on_single by done.
    simpl. by rewrite H0, H1, H2.
  - apply Forall_cons in Hall as [(Hs & H0 & H1 & H2) Hall].
    change (joined (seg' :: segs)) with ("/" +:+ seg' +:+ joined segs).
    change ("/" +:+ seg' +:+ joined segs)
      with (String "/" (seg' +:+ joined segs)).
    rewrite split_on_app by done.
    simpl. rewrite H0, H1, H2. simpl.
    rewrite IH by done. by rewrite <- List.app_assoc.
Qed.

Lemma normalize_reassemble cwd kept :
  Forall retained_segment kept →
  Spec.normalize (Spec.reassemble kept) cwd = Spec.reassemble kept.
Proof.
  intros Hkept. unfold Spec.normalize. destruct kept as [|seg segs]; [done |].
  f_equal. unfold Spec.resolve.
  change (Spec.reassemble (seg :: segs)) with (String "/" (seg +:+ joined segs)).
  cbn [CppString.starts_with]. rewrite ascii_eqb_refl. cbn [andb].
  change (String "/" (seg +:+ joined segs))
    with ("" +:+ String "/" (seg +:+ joined segs)).
  rewrite split_on_app by done. simpl. by rewrite retain_joined.
Qed.

(** Normalization is idempotent. *)
Lemma normalizePath_idempotent cwd path :
  normalizePath cwd (normalizePath cwd path) = normalizePath cwd path.
Proof.
  rewrite !normalizePath_normalize. unfold Spec.normalize at 2 3.
  apply normalize_reassemble. apply retain_retained; [| done].
  apply split_on_no_delimiter.
Qed.

Lemma normalizePath_starts_with_slash cwd path :
  CppString.starts_with "/" (normalizePath cwd path) = true.
Proof.
  rewrite normalizePath_normalize. unfold Spec.normalize.
  by destruct (Spec.retain _ _).
Qed.

End NormalizeTwice.

(** ** Moving a directory *)

Lemma starts_with_app_char p s c :
  CppString.starts_with p (s +:+ String c "") = true →
  CppString.starts_with p s = true ∨ p = s +:+ String c "".
Proof.
  revert p. induction s as [|a s IH]; intros [|b p]; simpl; auto.
  - rewrite append_nil_l. simpl.
    intros [->%Ascii.eqb_eq Hp]%andb_true_iff. destruct p; [by right | done].
  - rewrite append_cons. simpl.
    intros [->%Ascii.eqb_eq Hp]%andb_true_iff. rewrite ascii_eqb_refl. simpl.
    destruct (IH p Hp) as [? | ->]; auto.
Qed.

Lemma starts_with_longer p s :
  String.length s < String.length p → CppString.starts_with p s = false.
Proof.
  intros Hlen. destruct (CppString.starts_with p s) eqn:E; [| done].
  apply starts_with_length in E. lia.
Qed.

Lemma lookup_filter_not_hasPrefix pfx (m : Store) k :
  filter (λ kv, ¬ hasPrefix pfx kv) m !! k
    = if CppString.starts_with pfx k then None else m !! k.
Proof.
  destruct (CppString.starts_with pfx k) eqn:E.
  - apply map_lookup_filter_None. right. intros e' _ Hn. by apply Hn.
  - destruct (m !! k) as [e'|] eqn:Hk.
    + apply map_lookup_filter_Some. split; [done |].
      unfold hasPrefix. simpl. by rewrite E.
    + apply map_lookup_filter_None. by left.
Qed.

Section MoveDirectory.

Context (now : string) (m : Store) (sp dp : string) (e : FSEntry).
Hypothesis Hsp_abs : CppString.starts_with "/" sp = true.
Hypothesis Hdp_abs : CppString.starts_with "/" dp = true.
Hypothesis Hsrc : m !! sp = Some e.
Hypothesis Hdst : m !! dp = None.
Hypothesis Houtside : CppString.starts_with (dirPrefix sp) dp = false.
Hypothesis Hfree :
  ∀ k, is_Some (m !! k) → CppString.starts_with (dirPrefix dp) k = false.

Lemma move_source_prefix : dirPrefix sp = sp +:+ "/".
Proof.
  unfold dirPrefix in *. destruct (String.eqb sp "/"); [| done]. congruence.
Qed.

Lemma move_dest_prefix : dirPrefix dp = dp +:+ "/".
Proof.
  pose proof (Hfree sp (mk_is_Some _ _ Hsrc)) as H.
  unfold dirPrefix in *. destruct (String.eqb dp "/"); [| done]. congruence.
Qed.

Lemma move_source_ne_dest : sp ≠ dp.
Proof. intros Heq. pose proof Hsrc as H. rewrite Heq, Hdst in H. done. Qed.

Lemma move_dest_not_under_dest : CppString.starts_with (dirPrefix dp) dp = false.
Proof.
  rewrite move_dest_prefix. apply starts_with_longer.
  rewrite append_length. simpl. lia.
Qed.

Lemma move_inside_ne_source k :
  CppString.starts_with (dirPrefix sp) k = true → k ≠ sp.
Proof.
  rewrite move_source_prefix. intros H Heq. rewrite Heq in H.
  rewrite starts_with_longer in H; [done |]. rewrite append_length. simpl. lia.
Qed.

(** A remapped path is not under the source. *)
Lemma move_remapped_outside rel :
  CppString.starts_with (dirPrefix sp) (dirPrefix dp +:+ rel) = false.
Proof.
  destruct (CppString.starts_with (dirPrefix sp) (dirPrefix dp +:+ rel)) eqn:E;
    [exfalso | done].
  pose proof (starts_with_app (dirPrefix dp) rel) as E'.
  destruct (starts_with_comparable _ _ _ E E') as [H | H].
  - rewrite move_dest_prefix in H.
    apply starts_with_app_char in H as [H | H]; [congruence |].
    rewrite move_source_prefix in H. apply append_inv_tail in H.
    by apply move_source_ne_dest.
  - rewrite move_source_prefix in H.
    apply starts_with_app_char in H as [H | H].
    + rewrite (Hfree sp) in H; [done | by eexists].
    + rewrite move_dest_prefix in H. apply append_inv_tail in H.
      by apply move_source_ne_dest.
Qed.

Lemma move_remapped_ne_dest rel : dirPrefix dp +:+ rel ≠ dp.
Proof.
  intros H. apply (f_equal String.length) in H.
  rewrite move_dest_prefix, !append_length in H. simpl in H. lia.
Qed.

Lemma elem_of_moveEntries k' e' :
  (k', e') ∈ (moveEntries now m sp dp) ↔
  ∃ rel, k' = dirPrefix dp +:+ rel ∧ m !! (dirPrefix sp +:+ rel) = Some e'.
Proof.
  unfold moveEntries. rewrite list_elem_of_fmap. split.
  - intros [[k0 e0] [Heq [[Hne Hpre] Hin%elem_of_map_to_list]%list_elem_of_filter]].
    simpl in *. injection Heq as -> ->.
    exists (CppString.drop (String.length (dirPrefix sp)) k0). split; [done |].
    rewrite <- (starts_with_inv _ _ Hpre).
    rewrite lookup_insert_ne in Hin; [done |]. intros <-. congruence.
  - intros (rel & -> & Hl). exists (dirPrefix sp +:+ rel, e'). split.
    + unfold remapEntry, remapPath. simpl. by rewrite drop_app.
    + apply list_elem_of_filter. split.
      * split; simpl; [| apply starts_with_app].
        apply move_inside_ne_source, starts_with_app.
      * apply elem_of_map_to_list. rewrite lookup_insert_ne; [done |].
        intros Heq. pose proof (starts_with_app (dirPrefix sp) rel) as H.
        rewrite <- Heq in H. congruence.
Qed.

Lemma NoDup_moveEntries : NoDup (moveEntries now m sp dp).*1.
Proof.
  unfold moveEntries. rewrite <- list_fmap_compose.
  apply NoDup_fmap_2_strong.
  - intros [k1 e1] [k2 e2]
      [[_ H1] Hin1%elem_of_map_to_list]%list_elem_of_filter
      [[_ H2] Hin2%elem_of_map_to_list]%list_elem_of_filter Heq.
    simpl in *. unfold remapPath in Heq. apply append_inv_head in Heq.
    assert (k1 = k2) as ->.
    { rewrite (starts_with_inv _ _ H1), (starts_with_inv _ _ H2). by rewrite Heq. }
    congruence.
  - apply NoDup_filter, NoDup_map_to_list.
Qed.

Lemma lookup_after_inserts k :
  insertAll (moveEntries now m sp dp) (<[dp := newDirectory now]> m) !! k
    = if CppString.starts_with (dirPrefix dp) k
      then m !! remapPath (dirPrefix dp) (dirPrefix sp) k
      else <[dp := newDirectory now]> m !! k.
Proof.
  destruct (CppString.starts_with (dirPrefix dp) k) eqn:E.
  - apply starts_with_inv in E. unfold remapPath.
    set (rel := CppString.drop _ k) in *.
    destruct (m !! (dirPrefix sp +:+ rel)) as [e'|] eqn:Hl.
    + apply lookup_insertAll_in; [apply NoDup_moveEntries |].
      apply elem_of_moveEntries. eauto.
    + rewrite lookup_insertAll_notin.
      * rewrite lookup_insert_ne.
        -- destruct (m !! k) as [e'|] eqn:Hk; [| done].
           pose proof (Hfree k (mk_is_Some _ _ Hk)) as Hf.
           rewrite E, starts_with_app in Hf. done.
        -- rewrite E. intros Heq. symmetry in Heq. by apply move_remapped_ne_dest in Heq.
      * intros [[k' e'] [Hk Hin]]%list_elem_of_fmap. simpl in Hk. subst k'.
        apply elem_of_moveEntries in Hin as (rel' & Heq & Hl').
        rewrite E in Heq. apply append_inv_head in Heq. congruence.
  - apply lookup_insertAll_notin.
    intros [[k' e'] [Hk Hin]]%list_elem_of_fmap. simpl in Hk. subst k'.
    apply elem_of_moveEntries in Hin as (rel' & Heq & Hl').
    rewrite Heq, starts_with_app in E. done.
Qed.

(** Where every key ends up. *)
Lemma movedStore_lookup k :
  movedStore now m sp dp !! k =
    if decide (k = dp) then Some (newDirectory now)
    else if CppString.starts_with (dirPrefix dp) k
         then m !! remapPath (dirPrefix dp) (dirPrefix sp) k
    else if decide (k = sp) then None
    else if CppString.starts_with (dirPrefix sp) k then None
    else m !! k.
Proof.
  unfold movedStore. cbv zeta. fold (moveEntries now m sp dp).
  rewrite eraseAll_filter_keys.
  destruct (decide (k = dp)) as [-> | Hkd].
  - rewrite lookup_delete_ne by apply move_source_ne_dest.
    rewrite lookup_filter_not_hasPrefix, Houtside, lookup_after_inserts.
    rewrite move_dest_not_under_dest. apply lookup_insert_eq.
  - destruct (CppString.starts_with (dirPrefix dp) k) eqn:E.
    + assert (k ≠ sp) as Hks.
      { intros ->. rewrite (Hfree sp) in E; [done | by eexists]. }
      rewrite lookup_delete_ne by done.
      rewrite lookup_filter_not_hasPrefix.
      rewrite (starts_with_inv _ _ E) at 1. rewrite move_remapped_outside.
      by rewrite lookup_after_inserts, E.
    + destruct (decide (k = sp)) as [-> | Hks]; [apply lookup_delete_eq |].
      rewrite lookup_delete_ne by done.
      rewrite lookup_filter_not_hasPrefix.
      destruct (CppString.starts_with (dirPrefix sp) k); [done |].
      rewrite lookup_after_inserts, E. by apply lookup_insert_ne.
Qed.

Lemma moveKey_inj k1 k2 :
  is_Some (m !! k1) → is_Some (m !! k2) →
  moveKey sp dp k1 = moveKey sp dp k2 → k1 = k2.
Proof.
  intros H1 H2. unfold moveKey, remapPath.
  destruct (decide (k1 = sp)) as [E1 | N1], (decide (k2 = sp)) as [E2 | N2].
  - congruence.
  - destruct (CppString.starts_with (dirPrefix sp) k2).
    + intros Heq. symmetry in Heq. by apply move_remapped_ne_dest in Heq.
    + intros <-. rewrite Hdst in H2. by destruct H2.
  - destruct (CppString.starts_with (dirPrefix sp) k1).
    + intros Heq. by apply move_remapped_ne_dest in Heq.
    + intros ->. rewrite Hdst in H1. by destruct H1.
  - destruct (CppString.starts_with (dirPrefix sp) k1) eqn:P1,
             (CppString.starts_with (dirPrefix sp) k2) eqn:P2.
    + intros Heq%append_inv_head.
      rewrite (starts_with_inv _ _ P1), (starts_with_inv _ _ P2). by rewrite Heq.
    + intros Heq. pose proof (Hfree k2 H2) as Hf.
      rewrite <- Heq, starts_with_app in Hf. done.
    + intros Heq. pose proof (Hfree k1 H1) as Hf.
      rewrite Heq, starts_with_app in Hf. done.
    + done.
Qed.

Lemma movedStore_keys k :
  is_Some (movedStore now m sp dp !! k) ↔
  ∃ k0, is_Some (m !! k0) ∧ k = moveKey sp dp k0.
Proof.
  rewrite movedStore_lookup. split.
  - destruct (decide (k = dp)) as [Hkd | Hkd].
    { intros _. exists sp. split; [by eexists |].
      unfold moveKey. by rewrite decide_True. }
    destruct (CppString.starts_with (dirPrefix dp) k) eqn:E.
    { intros Hl. eexists. split; [exact Hl |].
      unfold moveKey, remapPath.
      rewrite decide_False by apply move_inside_ne_source, starts_with_app.
      rewrite starts_with_app, drop_app. by apply starts_with_inv. }
    destruct (decide (k = sp)) as [Hks | Hks]; [by intros [] |].
    destruct (CppString.starts_with (dirPrefix sp) k) eqn:E'; [by intros [] |].
    intros Hl. exists k. split; [done |].
    unfold moveKey. by rewrite decide_False, E'.
  - intros (k0 & Hk0 & Hk). subst k. unfold moveKey.
    destruct (decide (k0 = sp)) as [Hks | Hks].
    { by rewrite decide_True. }
    destruct (CppString.starts_with (dirPrefix sp) k0) eqn:E'.
    + unfold remapPath. rewrite decide_False by apply move_remapped_ne_dest.
      rewrite starts_with_app, drop_app. by rewrite <- (starts_with_inv _ _ E').
    + rewrite decide_False.
      * by rewrite (Hfree k0 Hk0), decide_False, E'.
      * intros Heq. rewrite Heq, Hdst in Hk0. by destruct Hk0.
Qed.

Lemma elem_of_keys (m' : Store) k :
  k ∈ (map_to_list m').*1 ↔ is_Some (m' !! k).
Proof.
  rewrite list_elem_of_fmap. split.
  - intros [[k' e'] [-> Hin%elem_of_map_to_list]]. by eexists.
  - intros [e' Hl]. exists (k, e'). split; [done |]. by apply elem_of_map_to_list.
Qed.

(** The move changes no count: the keys of the new store are the images of
    the keys of the old one under an injection. *)
Lemma movedStore_size : size (movedStore now m sp dp) = size m.
Proof.
  rewrite <- !length_map_to_list.
  rewrite <- (length_fmap fst (map_to_list (movedStore now m sp dp))).
  rewrite <- (length_fmap fst (map_to_list m)).
  rewrite <- (length_fmap (moveKey sp dp) (map_to_list m).*1).
  apply Permutation_length, NoDup_Permutation.
  - apply NoDup_fst_map_to_list.
  - apply NoDup_fmap_2_strong; [| apply NoDup_fst_map_to_list].
    intros k1 k2 H1%elem_of_keys H2%elem_of_keys. by apply moveKey_inj.
  - intros k. rewrite elem_of_keys, movedStore_keys, list_elem_of_fmap.
    split.
    + intros (k0 & Hk0 & ->). exists k0. by rewrite elem_of_keys.
    + intros (k0 & -> & Hk0%elem_of_keys). eauto.
Qed.

End MoveDirectory.

(** C2, as the code has it. The claim fails when a parent of the
    destination is missing: the move creates it, and the store grows.
    Here the store holds [/], [""], [/a] and [/a/f]; moving [/a] to [/x/y]
    adds [/x]. *)
Lemma move_creates_missing_parents :
  let m := memoryFileSystem move_example in
  let m' := memoryFileSystem
              (parseMoveCommand "31/10/2026" "/a" "/x/y" move_example).1 in
  m !! "/a"%string = Some (newDirectory "30/10/2026") ∧
  m !! "/x/y"%string = None ∧
  m' !! "/x"%string = Some (newDirectory "31/10/2026") ∧
  size m = 4 ∧ size m' = 5.
Proof. repeat split; reflexivity. Qed.

(** C2, amended. Let [src] be a directory of the store and [dst] a path that
    is absent, whose directory part is already a directory of the store,
    that does not lie under [src], and under which the store has no entry.
    Then the move succeeds; [dst] is a new directory; every entry under
    [src] is found, with its value unchanged, at the path obtained by
    replacing the [src] prefix by the [dst] prefix, and nothing else is
    under [dst]; nothing is left at [src] or under it; every other entry is
    untouched; and the number of entries is unchanged. *)
Theorem parseMoveCommand_directory
    (now src dst : string) (fs : FileSystem) (e : FSEntry) :
  let m := memoryFileSystem fs in
  let sp := normalizePath (currentDirectory fs) src in
  let dp := normalizePath (currentDirectory fs) dst in
  m !! sp = Some e → type e = DIRECTORY → m !! dp = None →
  directoryExists (getDirectoryFromPath dp) m = true →
  CppString.starts_with (dirPrefix sp) dp = false →
  (∀ k, is_Some (m !! k) → CppString.starts_with (dirPrefix dp) k = false) →
  let result := parseMoveCommand now src dst fs in
  let m' := memoryFileSystem result.1 in
  result.2 = Done ∧
  m' !! dp = Some (newDirectory now) ∧
  (∀ k e', m !! k = Some e' → CppString.starts_with (dirPrefix sp) k = true →
           m' !! remapPath (dirPrefix sp) (dirPrefix dp) k = Some e') ∧
  (∀ k, CppString.starts_with (dirPrefix dp) k = true →
        m' !! k = m !! remapPath (dirPrefix dp) (dirPrefix sp) k) ∧
  m' !! sp = None ∧
  (∀ k, CppString.starts_with (dirPrefix sp) k = true → m' !! k = None) ∧
  (∀ k, k ≠ dp → CppString.starts_with (dirPrefix dp) k = false →
        k ≠ sp → CppString.starts_with (dirPrefix sp) k = false →
        m' !! k = m !! k) ∧
  size m' = size m.
Proof.
  intros m sp dp Hsrc Htype Hdst Hparent Houtside Hfree result m'.
  assert (Hsp_abs : CppString.starts_with "/" sp = true)
    by apply normalizePath_starts_with_slash.
  assert (Hdp_abs : CppString.starts_with "/" dp = true)
    by apply normalizePath_starts_with_slash.
  assert (result = (with_store fs (movedStore now m sp dp), Done)) as Hresult.
  { subst result. unfold parseMoveCommand. fold sp dp m. rewrite Hsrc, Hdst.
    unfold has_type. rewrite bool_decide_eq_true_2 by done.
    assert (normalizePath (currentDirectory fs) dp = dp) as Hidem
      by apply normalizePath_idempotent.
    unfold addNewEntryInternal. rewrite !Hidem. fold m. rewrite Hdst.
    rewrite ensureParentDirectoriesExist_noop by done. reflexivity. }
  assert (m' = movedStore now m sp dp) as Hm' by (subst m'; by rewrite Hresult).
  pose proof (movedStore_lookup now m sp dp e Hsp_abs Hdp_abs Hsrc Hdst
                Houtside Hfree) as Hlookup.
  rewrite <- Hm' in Hlookup.
  pose proof (move_source_ne_dest m sp dp e Hsrc Hdst) as Hne.
  split; [by rewrite Hresult |]. split; [| split; [| split; [| split; [| split; [| split]]]]].
  - rewrite Hlookup. by rewrite decide_True.
  - intros k e' Hk Hpre. rewrite Hlookup. unfold remapPath.
    rewrite decide_False
      by apply (move_remapped_ne_dest m sp dp e Hsp_abs Hsrc Hfree).
    rewrite starts_with_app, drop_app. by rewrite <- (starts_with_inv _ _ Hpre).
  - intros k Hpre. rewrite Hlookup, Hpre. rewrite decide_False; [done |].
    intros ->.
    rewrite (move_dest_not_under_dest m sp dp e Hsp_abs Hsrc Hfree) in Hpre. done.
  - rewrite Hlookup. rewrite decide_False by done.
    rewrite (Hfree sp) by (by eexists). by rewrite decide_True.
  - intros k Hpre. rewrite Hlookup.
    rewrite decide_False by (intros ->; congruence).
    destruct (CppString.starts_with (dirPrefix dp) k) eqn:E.
    + apply starts_with_inv in E. rewrite E in Hpre.
      rewrite (move_remapped_outside m sp dp e Hsp_abs Hdp_abs Hsrc Hdst
                 Houtside Hfree) in Hpre. done.
    + rewrite Hpre. by destruct (decide _).
  - intros k Hkd Hkd' Hks Hks'. rewrite Hlookup.
    by rewrite decide_False, Hkd', decide_False, Hks'.
  - rewrite Hm'. by eapply movedStore_size.
Qed.

(** The store of [move_example] has nothing under [/b/]. *)
Lemma move_example_free (k : string) :
  is_Some (memoryFileSystem move_example !! k) →
  CppString.starts_with "/b/" k = false.
Proof.
  intros [e' Hk].
  assert (map_Forall (λ k _, CppString.starts_with "/b/" k = false)
                     (memoryFileSystem move_example)) as Hall.
  { apply (bool_decide_unpack _). vm_compute. exact I. }
  exact (Hall k e' Hk).
Defined.

(** Moving [/a], which holds [/a/f], to [/b]. *)
Lemma parseMoveCommand_directory_witness :
  let m := memoryFileSystem move_example in
  let m' := memoryFileSystem
              (parseMoveCommand "31/10/2026" "/a" "/b" move_example).1 in
  (parseMoveCommand "31/10/2026" "/a" "/b" move_example).2 = Done ∧
  m' !! "/b"%string = Some (newDirectory "31/10/2026") ∧
  (∀ k e', m !! k = Some e' → CppString.starts_with "/a/" k = true →
           m' !! remapPath "/a/" "/b/" k = Some e') ∧
  (∀ k, CppString.starts_with "/b/" k = true →
        m' !! k = m !! remapPath "/b/" "/a/" k) ∧
  m' !! "/a"%string = None ∧
  (∀ k, CppString.starts_with "/a/" k = true → m' !! k = None) ∧
  (∀ k, k ≠ "/b"%string → CppString.starts_with "/b/" k = false →
        k ≠ "/a"%string → CppString.starts_with "/a/" k = false →
        m' !! k = m !! k) ∧
  size m' = size m.
Proof.
  apply (parseMoveCommand_directory "31/10/2026" "/a" "/b" move_example
           (newDirectory "30/10/2026")).
  - reflexivity.
  - reflexivity.
  - reflexivity.
  - reflexivity.
  - reflexivity.
  - exact move_example_free.
Defined.

(** ** The dump format *)

Section Decimal.

Local Open Scope N_scope.

Lemma digit_value_digit (n : N) :
  n < 10 → digit_value (ascii_of_N (48 + n)) = Some n.
Proof.
  intros Hn. unfold digit_value.
  rewrite N_ascii_embedding by lia.
  assert ((48 <=? 48 + n) && (48 + n <=? 57) = true) as ->.
  { apply andb_true_iff. split; apply N.leb_le; lia. }
  f_equal. lia.
Qed.

Lemma digit_value_mod (n : N) :
  digit_value (ascii_of_N (48 + n mod 10)) = Some (n mod 10).
Proof. apply digit_value_digit. by apply N.mod_lt. Qed.

Lemma decimal_digits_S (fuel : nat) (n : N) (acc : string) :
  decimal_digits (S fuel) n acc
    = if n <? 10 then String (ascii_of_N (48 + n mod 10)) acc
      else decimal_digits fuel (n / 10) (String (ascii_of_N (48 + n mod 10)) acc).
Proof. reflexivity. Qed.

(** Reading back what was printed. *)
Lemma read_digits_decimal (fuel : nat) (n : N) (rest : string) :
  n < 10 ^ N.of_nat (S fuel) →
  read_digits (decimal_digits (S fuel) n rest) None = read_digits rest (Some n).
Proof.
  revert n rest. induction fuel as [|fuel IH]; intros n rest Hn.
  - change (10 ^ N.of_nat 1) with 10 in Hn.
    rewrite decimal_digits_S. apply N.ltb_lt in Hn as Hn'. rewrite Hn'.
    cbn [read_digits]. rewrite digit_value_mod. simpl default.
    rewrite N.mod_small by done. f_equal.
  - rewrite decimal_digits_S. destruct (n <? 10) eqn:Hsmall.
    + apply N.ltb_lt in Hsmall.
      cbn [read_digits]. rewrite digit_value_mod. simpl default.
      rewrite N.mod_small by done. f_equal.
    + rewrite IH.
      * cbn [read_digits]. rewrite digit_value_mod. simpl default.
        do 2 f_equal. symmetry. apply N.div_mod. done.
      * apply N.Div0.div_lt_upper_bound.
        rewrite <- N.pow_succ_r'. by rewrite <- Nat2N.inj_succ.
Qed.

Lemma decimal_fuel (n : N) : n < 10 ^ N.of_nat (S (N.to_nat (N.log2 n))).
Proof.
  rewrite Nat2N.inj_succ, N2Nat.id.
  destruct (N.eq_dec n 0) as [-> | Hn]; [done |].
  eapply N.lt_le_trans; [apply N.log2_spec; lia |].
  apply N.pow_le_mono_l. lia.
Qed.

Lemma decimal_digits_head (fuel : nat) (n : N) (rest : string) :
  ∃ d s, decimal_digits (S fuel) n rest = String (ascii_of_N (48 + d)) s ∧ d < 10.
Proof.
  revert n rest. induction fuel as [|fuel IH]; intros n rest.
  - rewrite decimal_digits_S. exists (n mod 10), rest.
    split; [by destruct (n <? 10) | by apply N.mod_lt].
  - rewrite decimal_digits_S. destruct (n <? 10).
    + exists (n mod 10), rest. split; [done | by apply N.mod_lt].
    + apply IH.
Qed.

Lemma stoull_to_decimal (n : N) : n < 2 ^ 64 → stoull (to_decimal n) = Some n.
Proof.
  intros Hn. unfold stoull, to_decimal.
  pose proof (read_digits_decimal (N.to_nat (N.log2 n)) n "" (decimal_fuel n)) as Hread.
  destruct (decimal_digits_head (N.to_nat (N.log2 n)) n "") as (d & s & Hs & Hd).
  rewrite Hs in *.
  assert (skip_spaces (String (ascii_of_N (48 + d)) s)
          = String (ascii_of_N (48 + d)) s) as ->.
  { cbn [skip_spaces]. unfold isspace. rewrite N_ascii_embedding by lia.
    assert ((9 <=? 48 + d) && (48 + d <=? 13) || (48 + d =? 32) = false) as ->; [| done].
    apply orb_false_iff. split.
    - apply andb_false_iff. right. apply N.leb_gt. lia.
    - apply N.eqb_neq. lia. }
  assert (match String (ascii_of_N (48 + d)) s with
          | String "-" r => (true, r)
          | String "+" r => (false, r)
          | _ => (false, String (ascii_of_N (48 + d)) s)
          end = (false, String (ascii_of_N (48 + d)) s)) as ->.
  { assert (d = 0 ∨ d = 1 ∨ d = 2 ∨ d = 3 ∨ d = 4 ∨ d = 5 ∨ d = 6 ∨ d = 7
            ∨ d = 8 ∨ d = 9) as Hcases by lia.
    repeat (destruct Hcases as [-> | Hcases]; [reflexivity |]). by subst d. }
  rewrite Hread. cbn [read_digits].
  apply N.ltb_lt in Hn. by rewrite Hn.
Qed.

(** The digits contain no character that is not a digit. *)
Lemma decimal_digits_contains (c : ascii) (fuel : nat) (n : N) (rest : string) :
  digit_value c = None → CppString.contains c rest = false →
  CppString.contains c (decimal_digits fuel n rest) = false.
Proof.
  intros Hc. revert n rest. induction fuel as [|fuel IH]; intros n rest Hrest; [done |].
  assert (CppString.contains c (String (ascii_of_N (48 + n mod 10)) rest) = false) as H.
  { simpl. rewrite Hrest, orb_false_r. apply Ascii.eqb_neq. intros Heq.
    pose proof (digit_value_mod n) as Hd. rewrite Heq in Hd. congruence. }
  rewrite decimal_digits_S. destruct (n <? 10); [done | by apply IH].
Qed.

Lemma to_decimal_contains (c : ascii) (n : N) :
  digit_value c = None → CppString.contains c (to_decimal n) = false.
Proof. intros Hc. by apply decimal_digits_contains. Qed.

End Decimal.

Section Dump.

Implicit Types (kv : string * FSEntry) (m : Store) (s x r : string).

Lemma contains_app c s1 s2 :
  CppString.contains c (s1 +:+ s2)
    = CppString.contains c s1 || CppString.contains c s2.
Proof.
  induction s1 as [|a s1 IH]; [done |].
  rewrite append_cons. simpl. rewrite IH. by rewrite orb_assoc.
Qed.

Lemma dumpRecord_line kv : dumpRecord kv = recordLine kv +:+ String LF "".
Proof.
  unfold dumpRecord, recordLine.
  by repeat (rewrite append_assoc || rewrite append_cons || rewrite append_nil_l).
Qed.

Lemma typeStr_contains c e :
  c = "|" ∨ c = LF → CppString.contains c (typeStr e) = false.
Proof. unfold typeStr. intros [-> | ->]; by destruct (has_type FILE e). Qed.

Lemma recordLine_no_newline kv :
  dumpable kv → CppString.contains LF (recordLine kv) = false.
Proof.
  intros (_ & Hk & _ & Hc & _ & Hm & Hd & _ & _). unfold recordLine.
  repeat (rewrite contains_app; cbn [CppString.contains]).
  rewrite typeStr_contains by auto. rewrite Hk, Hc, Hm.
  rewrite to_decimal_contains by done.
  destruct (has_type FILE kv.2); by rewrite ?Hd.
Qed.

Lemma getline_field d x r old :
  CppString.contains d x = false →
  IStream.getline d (IStream.mkIStream (x +:+ String d r) false false) old
    = (IStream.mkIStream r false false, x).
Proof.
  intros Hx. unfold IStream.getline. simpl. by rewrite read_until_app.
Qed.

Lemma getline_rest d x old :
  CppString.contains d x = false →
  IStream.getline d (IStream.mkIStream x false false) old
    = (IStream.mkIStream "" true (CppString.empty x), x).
Proof.
  intros Hx. unfold IStream.getline. simpl. by rewrite read_until_no_delimiter.
Qed.

Lemma typeStr_front e s :
  CppString.empty (typeStr e +:+ s) = false ∧
  Ascii.eqb (CppString.front (typeStr e +:+ s)) "#" = false.
Proof. unfold typeStr. by destruct (has_type FILE e). Qed.

Lemma typeStr_type e :
  (if String.eqb (typeStr e) "FILE" then FILE else DIRECTORY) = type e.
Proof. unfold typeStr, has_type. destruct e as [? ? ? ? []]; reflexivity. Qed.

(** Loading a record inserts the entry it was written from. *)
Lemma loadLine_record kv m :
  dumpable kv → loadLine (recordLine kv) (Some m) = Some (<[kv.1 := kv.2]> m).
Proof.
  intros (Hk & _ & Hc & _ & Hm & _ & Hd & Hdir & Hsize).
  unfold loadLine, recordLine.
  destruct (typeStr_front kv.2
              (String "|" (kv.1 +:+ String "|" (to_decimal (sizeInBytes kv.2) +:+
               String "|" (creationDate kv.2 +:+ String "|"
                 (modificationDate kv.2 +:+ String "|"
                    (if has_type FILE kv.2 then data kv.2 else EmptyString)))))))
    as [-> ->].
  cbn [orb]. unfold IStream.open.
  rewrite getline_field by (apply typeStr_contains; auto).
  cbn [IStream.failbit]. rewrite getline_field by done.
  cbn [IStream.failbit].
  rewrite getline_field by (by apply to_decimal_contains).
  cbn [IStream.failbit]. rewrite getline_field by done.
  cbn [IStream.failbit]. rewrite getline_field by done.
  cbn [IStream.failbit].
  rewrite getline_rest by (destruct (has_type FILE kv.2); done).
  rewrite stoull_to_decimal by done. rewrite typeStr_type.
  do 2 f_equal. destruct kv as [k [dat size created modified ty]]. simpl in *.
  f_equal. unfold has_type. simpl. destruct ty; simpl; [done |].
  symmetry. by apply Hdir.
Qed.

Lemma loadLine_comment s acc : loadLine (String "#" s) acc = acc.
Proof. by destruct acc. Qed.

Lemma lines_of_line d x r :
  CppString.contains d x = false →
  lines_of d (x +:+ String d r) = x :: lines_of d r.
Proof.
  intros Hx. unfold lines_of. rewrite split_on_app by done.
  apply lines_of_cons, split_on_nonempty.
Qed.

Lemma dumpText_body now entries :
  dumpText now entries = dumpHeader now +:+ dumpBody entries.
Proof.
  unfold dumpText. generalize (dumpHeader now).
  induction entries as [|kv entries IH]; intros s; simpl.
  - by rewrite append_empty_r.
  - by rewrite IH, append_assoc.
Qed.

Lemma dumpBody_lines entries :
  Forall dumpable entries → lines_of LF (dumpBody entries) = recordLine <$> entries.
Proof.
  induction 1 as [|kv entries Hkv _ IH]; [done |].
  simpl. rewrite dumpRecord_line, append_assoc.
  rewrite append_cons, append_nil_l.
  rewrite lines_of_line by by apply recordLine_no_newline. by rewrite IH.
Qed.

Lemma loadLines_records entries m :
  Forall dumpable entries →
  foldl (λ a l, loadLine l a) (Some m) (recordLine <$> entries)
    = Some (insertAll entries m).
Proof.
  intros Hall. revert m. induction Hall as [|kv entries Hkv _ IH]; intros m; [done |].
  rewrite fmap_cons. cbn [foldl]. rewrite loadLine_record by done. apply IH.
Qed.

(** Loading the text of a dump rebuilds the entries that were written, in
    the order in which they were written. *)
Lemma loadText_dumpText now entries :
  CppString.contains LF now = false → Forall dumpable entries →
  loadText (dumpText now entries) = Some (insertAll entries ∅).
Proof.
  intros Hnow Hall. unfold loadText. rewrite for_each_line_lines.
  rewrite dumpText_body. unfold dumpHeader. rewrite !append_assoc.
  rewrite <- (append_assoc "# Memory File System Dump - " now).
  rewrite (append_cons LF "" _), append_nil_l.
  rewrite lines_of_line by (by rewrite contains_app, Hnow).
  rewrite (append_cons LF "" _), append_nil_l.
  rewrite lines_of_line by done.
  rewrite dumpBody_lines by done.
  cbn [foldl]. rewrite append_cons, !loadLine_comment.
  by apply loadLines_records.
Qed.

(** Inserting the entries of a map in any order rebuilds the map. *)
Lemma insertAll_map_to_list entries m :
  entries ≡ₚ map_to_list m → insertAll entries ∅ = m.
Proof.
  intros Hperm. apply map_eq. intros k.
  assert (NoDup entries.*1) as Hnd.
  { rewrite Hperm. apply NoDup_fst_map_to_list. }
  destruct (m !! k) as [e|] eqn:Hk.
  - apply lookup_insertAll_in; [done |].
    rewrite Hperm. by apply elem_of_map_to_list.
  - rewrite lookup_insertAll_notin; [done |].
    rewrite Hperm. intros [e Hl]%elem_of_keys. congruence.
Qed.

End Dump.

(** C5, as the code has it. The claim fails on a reachable store: a file
    created under the name [a|7] is written as a record whose path field
    holds the separator, and loading the dump stores an entry under [/a]
    instead, with the rest of the path read as the size. *)
Lemma dump_breaks_on_separator :
  let m := memoryFileSystem separator_example in
  let loaded :=
    parseLoadCommand (Some (parseSaveCommand "31/10/2026" separator_example))
      (mkFS ∅ "/") in
  is_Some (m !! "/a|7"%string) ∧ m !! "/a"%string = None ∧
  ∃ fs', loaded = Some (fs', Done) ∧
         memoryFileSystem fs' !! "/a|7"%string = None ∧
         memoryFileSystem fs' !! "/a"%string
           = Some (mkFSEntry "30/10/2026|" 7 "0" "30/10/2026" FILE) ∧
         memoryFileSystem fs' ≠ m.
Proof.
  intros m loaded. split; [by eexists |]. split; [reflexivity |].
  eexists. split; [vm_compute; reflexivity |].
  split; [reflexivity |]. split; [reflexivity |].
  intros Heq. apply (f_equal (λ s : Store, s !! "/a"%string)) in Heq.
  vm_compute in Heq. discriminate.
Qed.

(** C5, amended. Let every entry of the store be one the format can carry:
    no separator and no newline in its path and dates, no newline in its
    content, no content for a directory, a size below [2^64]. Then the text
    that save writes, whatever the order in which the map is traversed,
    loads into any store as a mapping identical to the original: the same
    paths, and for each path the same kind, size, dates and content. *)
Theorem save_load_round_trip
    (now : string) (fs fresh : FileSystem) (entries : list (string * FSEntry)) :
  entries ≡ₚ map_to_list (memoryFileSystem fs) →
  CppString.contains LF now = false →
  map_Forall (λ k e, dumpable (k, e)) (memoryFileSystem fs) →
  parseLoadCommand (Some (dumpText now entries)) fresh
    = Some (with_store fresh (memoryFileSystem fs), Done).
Proof.
  intros Hperm Hnow Hall. unfold parseLoadCommand.
  rewrite loadText_dumpText.
  - by rewrite (insertAll_map_to_list entries (memoryFileSystem fs)).
  - done.
  - rewrite Hperm. apply Forall_forall. intros [k e] Hin%elem_of_map_to_list.
    by apply Hall.
Qed.

(** The store of [move_example], written in the reverse of the order of
    [map_to_list], loads back unchanged. *)
Lemma save_load_round_trip_witness :
  parseLoadCommand
    (Some (dumpText "31/10/2026"
             (reverse (map_to_list (memoryFileSystem move_example)))))
    (mkFS ∅ "/")
  = Some (with_store (mkFS ∅ "/") (memoryFileSystem move_example), Done).
Proof.
  apply (save_load_round_trip "31/10/2026" move_example (mkFS ∅ "/")).
  - apply reverse_Permutation.
  - reflexivity.
  - apply (bool_decide_unpack _). vm_compute. exact I.
Defined.

(** * Further properties *)

(** ** Paths *)

Section PathProperties.

Implicit Types (s p seg : string) (segs : list string).

Lemma split_on_joined seg segs :
  Forall retained_segment (seg :: segs) →
  Spec.split_on "/" (seg +:+ joined segs) = seg :: segs.
Proof.
  revert seg. induction segs as [|seg' segs IH]; intros seg Hall.
  - apply Forall_cons in Hall as [(Hs & _) _].
    simpl. rewrite append_empty_r. by apply split_on_single.
  - apply Forall_cons in Hall as [(Hs & _) Hall].
    change (joined (seg' :: segs)) with (String "/" (seg' +:+ joined segs)).
    rewrite split_on_app by done. by rewrite IH.
Qed.

Lemma retained_segment_check seg :
  retained_segment seg →
  negb (String.eqb seg "" || String.eqb seg "." || String.eqb seg "..") = true.
Proof. intros (_ & -> & -> & ->). done. Qed.

Lemma canonical_reassemble segs :
  Forall retained_segment segs → Spec.canonical (Spec.reassemble segs) = true.
Proof.
  intros Hall. destruct segs as [|seg segs]; [done |].
  change (Spec.reassemble (seg :: segs)) with (String "/" (seg +:+ joined segs)).
  assert (seg +:+ joined segs ≠ EmptyString) as Hne.
  { apply Forall_cons in Hall as [(_ & Hseg & _) _].
    destruct seg; [done | by rewrite append_cons]. }
  unfold Spec.canonical.
  destruct (seg +:+ joined segs) as [|c r] eqn:E; [done |].
  rewrite <- E, split_on_joined by done.
  apply forallb_forall. intros x Hx%list_elem_of_In.
  apply retained_segment_check. by eapply Forall_forall in Hall.
Qed.

Lemma normalizePath_retained cwd path :
  ∃ segs, Forall retained_segment segs ∧
          normalizePath cwd path = Spec.reassemble segs.
Proof.
  rewrite normalizePath_normalize. eexists. split; [| reflexivity].
  apply retain_retained; [apply split_on_no_delimiter | done].
Qed.

Lemma joined_split_on s : joined (Spec.split_on "/" s) = "/" +:+ s.
Proof.
  induction s as [|c s IH]; [done |].
  simpl. destruct (Ascii.eqb c "/") eqn:Ec.
  - apply Ascii.eqb_eq in Ec as ->. simpl. by rewrite IH.
  - destruct (Spec.split_on "/" s) as [|seg segs] eqn:E.
    + by apply split_on_nonempty in E.
    + simpl in *. rewrite !append_cons, !append_nil_l in *.
      injection IH as IH. by rewrite IH.
Qed.

(** Every canonical path is what reassembling retained segments gives. *)
Lemma canonical_retained p :
  Spec.canonical p = true →
  ∃ segs, Forall retained_segment segs ∧ p = Spec.reassemble segs.
Proof.
  unfold Spec.canonical. destruct p as [|c rest]; [done |].
  destruct (Ascii.eqb c "/") eqn:Ec.
  2:{ intros H. exfalso. revert H Ec.
      destruct c as [[] [] [] [] [] [] [] []]; try done. }
  apply Ascii.eqb_eq in Ec as ->.
  destruct rest as [|c' rest'].
  { intros _. by exists []. }
  intros Hall. exists (Spec.split_on "/" (String c' rest')). split.
  - pose proof (split_on_no_delimiter "/" (String c' rest')) as Hfree.
    rewrite forallb_forall in Hall. apply Forall_forall. intros seg Hin.
    pose proof (proj1 (Forall_forall _ _) Hfree seg Hin) as Hseg.
    apply list_elem_of_In, Hall in Hin.
    apply negb_true_iff, orb_false_iff in Hin as [[H1 H2]%orb_false_iff H3].
    by repeat split.
  - unfold Spec.reassemble.
    destruct (Spec.split_on "/" (String c' rest')) eqn:E.
    + by apply split_on_nonempty in E.
    + rewrite <- E. fold (joined (Spec.split_on "/" (String c' rest'))).
      by rewrite joined_split_on.
Qed.

End PathProperties.

(** X1. Whatever the path and the current directory, the result of
    [normalizePath] is a canonical path, and normalizing it again, relative
    to any directory, gives it back. *)
Theorem normalizePath_canonical (cwd cwd' path : string) :
  Spec.canonical (normalizePath cwd path) = true ∧
  normalizePath cwd' (normalizePath cwd path) = normalizePath cwd path.
Proof.
  destruct (normalizePath_retained cwd path) as (segs & Hsegs & ->). split.
  - by apply canonical_reassemble.
  - rewrite normalizePath_normalize. by apply normalize_reassemble.
Qed.

(** X2. The paths that [normalizePath] leaves as they are are exactly the
    canonical ones. *)
Theorem normalizePath_fixed_iff_canonical (cwd path : string) :
  normalizePath cwd path = path ↔ Spec.canonical path = true.
Proof.
  split.
  - intros <-. destruct (normalizePath_retained cwd path) as (segs & Hsegs & ->).
    by apply canonical_reassemble.
  - intros (segs & Hsegs & ->)%canonical_retained.
    rewrite normalizePath_normalize. by apply normalize_reassemble.
Qed.

Section SplittingStrings.

Implicit Types (s x r : string) (c d : ascii).

Lemma read_until_eof_all d s x :
  IStream.read_until d s = (x, None) → x = s.
Proof.
  revert x. induction s as [|c s IH]; simpl; intros x.
  - by intros [= <-].
  - destruct (Ascii.eqb c d); [done |].
    destruct (IStream.read_until d s) as [x' r'] eqn:E.
    intros [= <- ->]. by rewrite (IH x' eq_refl).
Qed.

Lemma empty_true s : CppString.empty s = true ↔ s = EmptyString.
Proof. by destruct s. Qed.

Lemma tokenize_loop_split d fuel rest tokens :
  String.length rest < fuel →
  tokenize_loop fuel d rest tokens
    = tokens ++ filter (λ t, t ≠ EmptyString) (Spec.split_on d rest).
Proof.
  revert rest tokens. induction fuel as [|fuel IH]; intros rest tokens Hfuel; [lia |].
  simpl. destruct (IStream.read_until d rest) as [x [r|]] eqn:E.
  - apply read_until_delimiter in E as (-> & Hrest & _).
    rewrite IH by (subst rest; rewrite append_length in Hfuel; simpl in Hfuel; lia).
    destruct x as [|a x].
    + by rewrite filter_cons_False by (by intros H; apply H).
    + rewrite filter_cons_True by done. simpl. by rewrite <- List.app_assoc.
  - pose proof (read_until_eof_all _ _ _ E) as ->.
    apply read_until_eof in E as ->.
    destruct rest as [|a rest].
    + rewrite filter_cons_False by (by intros H; apply H).
      simpl. by rewrite List.app_nil_r.
    + by rewrite filter_cons_True by done.
Qed.

Lemma find_last_of_None c s :
  CppString.find_last_of c s = None ↔ CppString.contains c s = false.
Proof.
  induction s as [|a s IH]; simpl; [done |].
  destruct (CppString.find_last_of c s) as [i|].
  - split; [done |]. intros [_ H]%orb_false_iff. by apply IH in H.
  - rewrite (proj1 IH eq_refl), orb_false_r. by destruct (Ascii.eqb a c).
Qed.

Lemma find_last_of_Some c s i :
  CppString.find_last_of c s = Some i →
  s = CppString.take i s +:+ String c (CppString.drop (S i) s) ∧
  CppString.contains c (CppString.drop (S i) s) = false.
Proof.
  revert i. induction s as [|a s IH]; simpl; intros i; [done |].
  destruct (CppString.find_last_of c s) as [j|] eqn:E.
  - intros [= <-]. destruct (IH j eq_refl) as [Hs Hc]. split; [| done].
    cbn [CppString.take]. rewrite append_cons. by rewrite <- Hs.
  - destruct (Ascii.eqb a c) eqn:Ea; [| done].
    apply Ascii.eqb_eq in Ea as ->. intros [= <-]. split.
    + by destruct s.
    + apply find_last_of_None in E. by destruct s.
Qed.

End SplittingStrings.

(** X3. [tokenize] returns, in order, the non-empty segments between
    delimiters: runs of delimiters and delimiters at either end produce
    nothing, so no token is empty and no token contains the delimiter. *)
Theorem tokenize_segments (delimiter : ascii) (input : string) :
  tokenize delimiter input
    = filter (λ t, t ≠ EmptyString) (Spec.split_on delimiter input) ∧
  Forall (λ t, t ≠ EmptyString ∧ CppString.contains delimiter t = false)
         (tokenize delimiter input).
Proof.
  assert (tokenize delimiter input
          = filter (λ t, t ≠ EmptyString) (Spec.split_on delimiter input)) as Heq.
  { unfold tokenize. rewrite tokenize_loop_split by lia. done. }
  split; [done |]. rewrite Heq. apply Forall_forall.
  intros t [Ht Hin]%list_elem_of_filter. split; [done |].
  pose proof (split_on_no_delimiter delimiter input) as Hfree.
  by eapply Forall_forall in Hfree.
Qed.

(** X4. The file name part of a path never contains a slash. A path with a
    slash is its directory part, a slash and its file name part; for a path
    without a slash the directory part is [/] and the file name part is the
    path itself. *)
Theorem path_parts (path : string) :
  CppString.contains "/" (getFilenameFromPath path) = false ∧
  if CppString.contains "/" path
  then path = getDirectoryFromPath path +:+ "/" +:+ getFilenameFromPath path
  else getDirectoryFromPath path = "/"%string ∧ getFilenameFromPath path = path.
Proof.
  unfold getDirectoryFromPath, getFilenameFromPath.
  destruct (CppString.find_last_of "/" path) as [i|] eqn:E.
  - destruct (find_last_of_Some _ _ _ E) as [Hs Hc]. split; [done |].
    destruct (CppString.contains "/" path) eqn:Hp.
    + by rewrite append_cons, append_nil_l.
    + apply find_last_of_None in Hp. congruence.
  - apply find_last_of_None in E. by rewrite E.
Qed.

(** ** Creating, writing and reading *)

Section Creating.

Implicit Types (m : Store) (k path : string) (e : FSEntry) (fs : FileSystem).

Lemma ensureParents_parent fuel now path m :
  String.length path < fuel →
  getDirectoryFromPath path ≠ "/"%string →
  directoryExists (getDirectoryFromPath path)
    (ensureParents fuel now path m).2 = true.
Proof.
  intros Hfuel Hroot. destruct fuel as [|fuel]; [lia |]. simpl.
  destruct (String.eqb _ "/") eqn:Eroot.
  { by apply String.eqb_eq in Eroot. }
  destruct (directoryExists _ m) eqn:Edir; simpl; [done |].
  pose proof (ensureParents_enough_fuel fuel now (getDirectoryFromPath path) m) as Hok.
  destruct (ensureParents fuel now _ m) as [ok m1]. simpl in Hok.
  rewrite Hok.
  - simpl. unfold directoryExists. by rewrite lookup_insert_eq.
  - destruct (getDirectoryFromPath_shorter path) as [Hr | Hlt]; [done | lia].
Qed.

(** No key is removed, and a directory entry is never replaced. *)
Lemma ensureParents_keeps fuel now path m k e :
  m !! k = Some e →
  ∃ e', (ensureParents fuel now path m).2 !! k = Some e' ∧
        (type e = DIRECTORY → e' = e).
Proof.
  revert path m. induction fuel as [|fuel IH]; intros path m Hk; [by exists e |].
  simpl. destruct (String.eqb _ "/"); [by exists e |].
  destruct (directoryExists _ m) eqn:Edir; simpl; [by exists e |].
  destruct (IH (getDirectoryFromPath path) m Hk) as (e1 & Hk1 & He1).
  destruct (ensureParents fuel now _ m) as [ok m1]. simpl in *.
  destruct ok; simpl; [| by exists e1].
  destruct (decide (k = getDirectoryFromPath path)) as [-> | Hne].
  - rewrite lookup_insert_eq. eexists. split; [done |].
    intros Ht. unfold directoryExists, has_type in Edir. rewrite Hk in Edir.
    by apply bool_decide_eq_false in Edir.
  - rewrite lookup_insert_ne by done. by exists e1.
Qed.

Lemma canonical_directory_not_root p :
  Spec.canonical p = true → getDirectoryFromPath p ≠ "/"%string.
Proof.
  intros Hp. unfold getDirectoryFromPath.
  destruct (CppString.find_last_of "/" p) as [i|] eqn:E.
  - destruct (find_last_of_Some _ _ _ E) as [Hs _]. intros Hd.
    rewrite Hd in Hs. rewrite Hs in Hp. done.
  - apply find_last_of_None in E. intros _.
    destruct p as [|c p]; [done |].
    unfold Spec.canonical in Hp. simpl in E.
    destruct (Ascii.eqb c "/") eqn:Ec; [done |].
    revert Hp Ec. destruct c as [[] [] [] [] [] [] [] []]; done.
Qed.

Lemma normalizePath_is_canonical cwd path :
  Spec.canonical (normalizePath cwd path) = true.
Proof.
  destruct (normalizePath_retained cwd path) as (segs & Hsegs & ->).
  by apply canonical_reassemble.
Qed.

Lemma ensureParents_creates fuel now path m :
  String.length path < fuel →
  getDirectoryFromPath path ≠ "/"%string →
  directoryExists (getDirectoryFromPath path) m = false →
  (ensureParents fuel now path m).2 !! getDirectoryFromPath path
    = Some (newDirectory now).
Proof.
  intros Hfuel Hroot Hdir. destruct fuel as [|fuel]; [lia |]. simpl.
  destruct (String.eqb _ "/") eqn:Eroot.
  { by apply String.eqb_eq in Eroot. }
  rewrite Hdir. simpl.
  pose proof (ensureParents_enough_fuel fuel now (getDirectoryFromPath path) m) as Hok.
  destruct (ensureParents fuel now _ m) as [ok m1]. simpl in Hok.
  rewrite Hok.
  - simpl. apply lookup_insert_eq.
  - destruct (getDirectoryFromPath_shorter path) as [Hr | Hlt]; [done | lia].
Qed.

(** The store after a write: the parents are ensured, then the file is
    updated or inserted. *)
Lemma writeContentToFile_store now path content fs :
  let target := normalizePath (currentDirectory fs) path in
  (writeContentToFile now path content fs).2 = Done ∧
  memoryFileSystem (writeContentToFile now path content fs).1
    = <[target :=
          match memoryFileSystem fs !! target with
          | Some e =>
              if has_type FILE e
              then mkFSEntry content (N.of_nat (String.length content))
                     (creationDate e) now FILE
              else newFile now content
          | None => newFile now content
          end]> (ensureParentDirectoriesExist now target (memoryFileSystem fs)).2.
Proof.
  intros target. unfold writeContentToFile. fold target.
  pose proof (ensureParentDirectoriesExist_true now target (memoryFileSystem fs)) as Hok.
  pose proof (ensureParents_lookup_long (S (String.length target)) now target
                (memoryFileSystem fs) target (le_n _)) as Hsame.
  fold (ensureParentDirectoriesExist now target (memoryFileSystem fs)) in Hsame.
  destruct (ensureParentDirectoriesExist now target _) as [ok m1].
  simpl in Hok, Hsame. subst ok. simpl.
  unfold fileExists, updateFileContent. rewrite Hsame.
  destruct (memoryFileSystem fs !! target) as [e|]; [| done].
  unfold has_type. destruct (bool_decide (type e = FILE)) eqn:Et; [| done].
  apply bool_decide_eq_true in Et. simpl. by rewrite Et.
Qed.

Lemma writeContentToFile_entry now path content fs :
  ∃ e', memoryFileSystem (writeContentToFile now path content fs).1
          !! normalizePath (currentDirectory fs) path = Some e' ∧
        type e' = FILE ∧ data e' = content ∧
        sizeInBytes e' = N.of_nat (String.length content) ∧
        modificationDate e' = now.
Proof.
  destruct (writeContentToFile_store now path content fs) as [_ ->].
  rewrite lookup_insert_eq. eexists. split; [done |].
  destruct (memoryFileSystem fs !! _) as [e|]; [| done].
  by destruct (has_type FILE e).
Qed.

End Creating.

(** X5. [ensureParentDirectoriesExist] never fails. After it the directory
    part of the path is a directory of the store, unless that part is [/],
    which is not looked up. It removes no key, leaves every directory entry
    as it is, and writes only keys strictly shorter than the path. *)
Theorem ensureParentDirectoriesExist_effect (now path : string) (m : Store) :
  let result := ensureParentDirectoriesExist now path m in
  result.1 = true ∧
  (getDirectoryFromPath path ≠ "/"%string →
   directoryExists (getDirectoryFromPath path) result.2 = true) ∧
  (∀ k e, m !! k = Some e →
          ∃ e', result.2 !! k = Some e' ∧ (type e = DIRECTORY → e' = e)) ∧
  (∀ k, String.length path ≤ String.length k → result.2 !! k = m !! k).
Proof.
  intros result. subst result. unfold ensureParentDirectoriesExist.
  split; [apply ensureParents_enough_fuel; lia |]. split; [| split].
  - apply ensureParents_parent. lia.
  - intros k e. apply ensureParents_keeps.
  - intros k. apply ensureParents_lookup_long.
Qed.

(** X6. Writing below a path that exists as a file does not fail: that file
    is replaced by an empty directory, so its content is lost, and the
    content written is read back from the new path. *)
Theorem writeContentToFile_through_file
    (now path content : string) (fs : FileSystem) (e : FSEntry) :
  let target := normalizePath (currentDirectory fs) path in
  let result := writeContentToFile now path content fs in
  memoryFileSystem fs !! getDirectoryFromPath target = Some e →
  type e = FILE →
  result.2 = Done ∧
  memoryFileSystem result.1 !! getDirectoryFromPath target
    = Some (newDirectory now) ∧
  readContentFromFile path result.1 = inl content.
Proof.
  intros target result Hparent Htype. subst result.
  destruct (writeContentToFile_store now path content fs) as [Hdone Hstore].
  fold target in Hstore.
  assert (getDirectoryFromPath target ≠ "/"%string) as Hroot
    by apply canonical_directory_not_root, normalizePath_is_canonical.
  assert (getDirectoryFromPath target ≠ target) as Hne.
  { intros Heq. destruct (getDirectoryFromPath_shorter target) as [? | Hlt]; [done |].
    rewrite Heq in Hlt. lia. }
  split; [done |]. split.
  - rewrite Hstore, lookup_insert_ne by done.
    apply ensureParents_creates; [lia | done |].
    unfold directoryExists, has_type. rewrite Hparent, Htype. done.
  - unfold readContentFromFile. rewrite writeContentToFile_cwd.
    destruct (writeContentToFile_entry now path content fs) as (e' & -> & Ht & Hd & _).
    unfold has_type. rewrite Ht. simpl. by rewrite Hd.
Qed.

(** After [write /a old], [write /a/b new] turns [/a] into a directory. *)
Lemma writeContentToFile_through_file_witness :
  (writeContentToFile "31/10/2026" "/a/b" "new" through_file_example).2 = Done ∧
  memoryFileSystem
    (writeContentToFile "31/10/2026" "/a/b" "new" through_file_example).1
    !! "/a"%string = Some (newDirectory "31/10/2026") ∧
  readContentFromFile "/a/b"
    (writeContentToFile "31/10/2026" "/a/b" "new" through_file_example).1
    = inl "new"%string.
Proof.
  apply (writeContentToFile_through_file "31/10/2026" "/a/b" "new"
           through_file_example (newFile "30/10/2026" "old")); reflexivity.
Defined.

(** X7. Writing never fails, whatever the store holds at the path, and the
    content written is what reading the same path returns afterwards; the
    entry is a file whose size is the length of the content and whose
    modification date is the date of the write. *)
Theorem writeContentToFile_then_read
    (now path content : string) (fs : FileSystem) :
  let result := writeContentToFile now path content fs in
  result.2 = Done ∧
  readContentFromFile path result.1 = inl content ∧
  ∃ e, memoryFileSystem result.1 !! normalizePath (currentDirectory fs) path
         = Some e ∧
       type e = FILE ∧ data e = content ∧
       sizeInBytes e = N.of_nat (String.length content) ∧
       modificationDate e = now.
Proof.
  intros result. subst result.
  destruct (writeContentToFile_store now path content fs) as [Hdone _].
  destruct (writeContentToFile_entry now path content fs) as (e' & He' & Ht & Hd & Hs & Hm).
  split; [done |]. split.
  - unfold readContentFromFile. rewrite writeContentToFile_cwd, He'.
    unfold has_type. rewrite Ht. simpl. by rewrite Hd.
  - by exists e'.
Qed.

(** X8. Writing to a path that exists as a file updates the entry in place:
    content, size and modification date change, the creation date is kept. *)
Theorem writeContentToFile_keeps_creation_date
    (now path content : string) (fs : FileSystem) (e : FSEntry) :
  let target := normalizePath (currentDirectory fs) path in
  memoryFileSystem fs !! target = Some e → type e = FILE →
  memoryFileSystem (writeContentToFile now path content fs).1 !! target
    = Some (mkFSEntry content (N.of_nat (String.length content))
              (creationDate e) now FILE).
Proof.
  intros target Hl Ht.
  destruct (writeContentToFile_store now path content fs) as [_ ->].
  fold target. rewrite lookup_insert_eq, Hl.
  unfold has_type. by rewrite Ht.
Qed.

(** After [write /a old] on one day, [write /a new] on the next. *)
Lemma writeContentToFile_keeps_creation_date_witness :
  memoryFileSystem
    (writeContentToFile "31/10/2026" "/a" "new" through_file_example).1
    !! "/a"%string
  = Some (mkFSEntry "new" 3 "30/10/2026" "31/10/2026" FILE).
Proof.
  apply (writeContentToFile_keeps_creation_date "31/10/2026" "/a" "new"
           through_file_example (newFile "30/10/2026" "old")); reflexivity.
Defined.

(** X9. Creating an entry succeeds exactly when the normalized path is not a
    key of the store. On success the path holds an empty entry of the kind
    asked for, dated [now], and its directory part is a directory; on
    failure the state is returned as it was. *)
Theorem addNewEntryInternal_succeeds_iff_absent
    (now path : string) (isDirectory : bool) (fs : FileSystem) :
  let target := normalizePath (currentDirectory fs) path in
  let result := addNewEntryInternal now path isDirectory fs in
  (result.2 = Done ↔ memoryFileSystem fs !! target = None) ∧
  (result.2 = Done →
   memoryFileSystem result.1 !! target
     = Some (mkFSEntry "" 0 now now (if isDirectory then DIRECTORY else FILE)) ∧
   directoryExists (getDirectoryFromPath target) (memoryFileSystem result.1) = true) ∧
  (result.2 ≠ Done →
   result = (fs, Failed (EntryAlreadyExists target))).
Proof.
  intros target result. subst result. unfold addNewEntryInternal. fold target.
  destruct (memoryFileSystem fs !! target) as [e|] eqn:Hl.
  { simpl. split; [done |]. split; done. }
  pose proof (ensureParentDirectoriesExist_true now target (memoryFileSystem fs)) as Hok.
  pose proof (ensureParents_parent (S (String.length target)) now target
                (memoryFileSystem fs) (Nat.lt_succ_diag_r _)) as Hparent.
  fold (ensureParentDirectoriesExist now target (memoryFileSystem fs)) in Hparent.
  destruct (ensureParentDirectoriesExist now target _) as [ok m1].
  simpl in Hok, Hparent. subst ok. simpl.
  split; [done |]. split; [| done]. intros _. split; [apply lookup_insert_eq |].
  assert (getDirectoryFromPath target ≠ "/"%string) as Hroot
    by apply canonical_directory_not_root, normalizePath_is_canonical.
  specialize (Hparent Hroot).
  unfold directoryExists in *. rewrite lookup_insert_ne; [done |].
  intros Heq. destruct (getDirectoryFromPath_shorter target) as [? | Hlt]; [done |].
  rewrite <- Heq in Hlt. lia.
Qed.

(** X10. Creating the same path a second time always fails with the
    already-exists error and changes nothing, whatever the kinds asked for
    and whether or not the first creation succeeded. *)
Theorem addNewEntryInternal_twice
    (now now' path : string) (kind kind' : bool) (fs : FileSystem) :
  let fs1 := (addNewEntryInternal now path kind fs).1 in
  addNewEntryInternal now' path kind' fs1
    = (fs1, Failed (EntryAlreadyExists (normalizePath (currentDirectory fs) path))).
Proof.
  intros fs1. subst fs1.
  set (target := normalizePath (currentDirectory fs) path).
  assert (is_Some (memoryFileSystem (addNewEntryInternal now path kind fs).1
                     !! target)) as [e He].
  { unfold addNewEntryInternal. fold target.
    destruct (memoryFileSystem fs !! target) as [e|] eqn:Hl; [by eexists |].
    pose proof (ensureParentDirectoriesExist_true now target (memoryFileSystem fs)) as Hok.
    destruct (ensureParentDirectoriesExist now target _) as [ok m1].
    simpl in Hok. subst ok. simpl. rewrite lookup_insert_eq. by eexists. }
  unfold addNewEntryInternal at 1.
  rewrite addNewEntryInternal_cwd. fold target. by rewrite He.
Qed.

(** X11. Creating a file whose directory part is already a directory and
    then deleting it gives back the state before the creation. *)
Theorem addNewFile_then_removeFile (now path : string) (fs : FileSystem) :
  let target := normalizePath (currentDirectory fs) path in
  memoryFileSystem fs !! target = None →
  directoryExists (getDirectoryFromPath target) (memoryFileSystem fs) = true →
  removeFile path (addNewFile now path fs).1 = (fs, Done).
Proof.
  intros target Habsent Hparent.
  unfold addNewFile, addNewEntryInternal. fold target. rewrite Habsent.
  rewrite ensureParentDirectoriesExist_noop by done. simpl.
  unfold removeFile, removeEntryInternal. simpl. fold target.
  rewrite lookup_insert_eq. simpl.
  rewrite delete_insert_eq, delete_id by done. by destruct fs.
Qed.

(** After [mkdir /a], [create /a/f] and [delete /a/f] cancel out. *)
Lemma addNewFile_then_removeFile_witness :
  removeFile "/a/f" (addNewFile "31/10/2026" "/a/f" create_delete_example).1
    = (create_delete_example, Done).
Proof.
  apply (addNewFile_then_removeFile "31/10/2026" "/a/f" create_delete_example);
    reflexivity.
Defined.

(** ** Removing *)

Lemma eraseAll_subseteq (paths : list string) (m : Store) : eraseAll paths m ⊆ m.
Proof.
  apply map_subseteq_spec. intros k e. rewrite lookup_eraseAll.
  by destruct (decide (k ∈ paths)).
Qed.

(** X12. Removing adds and changes nothing: every entry of the store
    afterwards was in the store before, with the same value. When the
    removal succeeds the path is no longer a key; when it fails the state
    is the one it was given. *)
Theorem removeEntryInternal_only_removes
    (path : string) (recursive : bool) (fs : FileSystem) :
  let target := normalizePath (currentDirectory fs) path in
  let result := removeEntryInternal path recursive fs in
  memoryFileSystem result.1 ⊆ memoryFileSystem fs ∧
  (result.2 = Done → memoryFileSystem result.1 !! target = None) ∧
  (result.2 ≠ Done → result.1 = fs).
Proof.
  intros target result. subst result. unfold removeEntryInternal. fold target.
  destruct (memoryFileSystem fs !! target) as [e|]; [| done].
  destruct (has_type DIRECTORY e).
  - destruct (bool_decide _ && negb recursive); [done |]. simpl.
    split; [| split; [intros _; apply lookup_delete_eq | done]].
    etrans; [apply delete_subseteq |].
    destruct recursive; [apply eraseAll_subseteq | done].
  - simpl. split; [apply delete_subseteq |].
    split; [intros _; apply lookup_delete_eq | done].
Qed.

(** X13. Removing a directory with the recursive flag erases the directory
    and exactly the entries whose key starts with its prefix; every other
    entry stays as it is. *)
Theorem removeEntryInternal_recursive_subtree
    (path : string) (fs : FileSystem) (e : FSEntry) :
  let target := normalizePath (currentDirectory fs) path in
  memoryFileSystem fs !! target = Some e → type e = DIRECTORY →
  let result := removeEntryInternal path true fs in
  result.2 = Done ∧
  ∀ k, memoryFileSystem result.1 !! k
       = if decide (k = target) then None
         else if CppString.starts_with (dirPrefix target) k then None
         else memoryFileSystem fs !! k.
Proof.
  intros target Hl Ht result. subst result.
  unfold removeEntryInternal. fold target. rewrite Hl.
  unfold has_type. rewrite bool_decide_eq_true_2 by done.
  rewrite andb_false_r. simpl. split; [done |]. intros k.
  rewrite eraseAll_filter_keys.
  destruct (decide (k = target)) as [-> | Hne]; [apply lookup_delete_eq |].
  rewrite lookup_delete_ne by done.
  destruct (CppString.starts_with (dirPrefix target) k) eqn:E.
  - apply map_lookup_filter_None. right. intros e' _ Hn. apply Hn. by split.
  - destruct (memoryFileSystem fs !! k) as [e'|] eqn:Hk.
    + apply map_lookup_filter_Some. split; [done |].
      intros [_ Hp]. simpl in Hp. congruence.
    + apply map_lookup_filter_None. by left.
Qed.

(** [rmdir -r /a] on the store with [/a] and [/a/f]. *)
Lemma removeEntryInternal_recursive_subtree_witness :
  (removeEntryInternal "/a" true move_example).2 = Done ∧
  ∀ k, memoryFileSystem (removeEntryInternal "/a" true move_example).1 !! k
       = if decide (k = "/a"%string) then None
         else if CppString.starts_with "/a/" k then None
         else memoryFileSystem move_example !! k.
Proof.
  apply (removeEntryInternal_recursive_subtree "/a" move_example
           (newDirectory "30/10/2026")); reflexivity.
Defined.

(** X14. A removal of a file, or a removal without the recursive flag that
    succeeds, erases the one key it names and nothing else, so the store
    has one entry less. The recursive flag has no effect on a file, even
    when the store holds keys under its prefix. *)
Theorem removeEntryInternal_single_key
    (path : string) (recursive : bool) (fs : FileSystem) (e : FSEntry) :
  let target := normalizePath (currentDirectory fs) path in
  let result := removeEntryInternal path recursive fs in
  memoryFileSystem fs !! target = Some e →
  result.2 = Done →
  recursive = false ∨ type e = FILE →
  memoryFileSystem result.1 = delete target (memoryFileSystem fs) ∧
  size (memoryFileSystem fs) = S (size (memoryFileSystem result.1)).
Proof.
  intros target result Hl Hdone Hcase.
  assert (memoryFileSystem result.1 = delete target (memoryFileSystem fs)) as Heq.
  { subst result. revert Hdone. unfold removeEntryInternal. fold target.
    rewrite Hl. unfold has_type.
    destruct (bool_decide (type e = DIRECTORY)) eqn:Et; [| done].
    apply bool_decide_eq_true in Et.
    destruct Hcase as [-> | Hf]; [| congruence].
    rewrite andb_true_r. by destruct (bool_decide _). }
  split; [done |]. rewrite Heq.
  rewrite (map_size_delete_Some target (memoryFileSystem fs)) by by eexists.
  pose proof (map_size_ne_0_lookup_2 (memoryFileSystem fs) target
                (mk_is_Some _ _ Hl)). lia.
Qed.

(** [delete /a/f] on the store with [/a] and [/a/f]. *)
Lemma removeEntryInternal_single_key_witness :
  memoryFileSystem (removeEntryInternal "/a/f" false move_example).1
    = delete "/a/f"%string (memoryFileSystem move_example) ∧
  size (memoryFileSystem move_example)
    = S (size (memoryFileSystem (removeEntryInternal "/a/f" false move_example).1)).
Proof.
  apply (removeEntryInternal_single_key "/a/f" false move_example
           (newFile "30/10/2026" "x")); [reflexivity | reflexivity | by left].
Defined.

(** ** Moving and copying *)

(** X15. Moving a file to an absent path relabels its key: the destination
    holds the entry with every field unchanged, the source is gone, every
    other entry is untouched and the number of entries is the same. The
    parents of the destination are neither required nor created. *)
Theorem parseMoveCommand_file
    (now src dst : string) (fs : FileSystem) (e : FSEntry) :
  let m := memoryFileSystem fs in
  let sp := normalizePath (currentDirectory fs) src in
  let dp := normalizePath (currentDirectory fs) dst in
  m !! sp = Some e → type e = FILE → m !! dp = None →
  let result := parseMoveCommand now src dst fs in
  let m' := memoryFileSystem result.1 in
  result.2 = Done ∧
  m' !! dp = Some e ∧ m' !! sp = None ∧
  (∀ k, k ≠ sp → k ≠ dp → m' !! k = m !! k) ∧
  size m' = size m.
Proof.
  intros m sp dp Hsrc Htype Hdst result m'. subst m' result.
  unfold parseMoveCommand. fold sp dp m. rewrite Hsrc, Hdst.
  unfold has_type. rewrite bool_decide_eq_false_2 by congruence. simpl.
  assert (sp ≠ dp) as Hne by (intros Heq; congruence).
  split; [done |]. split; [| split; [| split]].
  - rewrite lookup_delete_ne by done. apply lookup_insert_eq.
  - apply lookup_delete_eq.
  - intros k Hks Hkd. by rewrite lookup_delete_ne, lookup_insert_ne.
  - rewrite map_size_delete_Some
      by (rewrite lookup_insert_ne by done; by eexists).
    by rewrite map_size_insert_None.
Qed.

(** [mv /a/f /nowhere/g] on the store with [/a] and [/a/f]. *)
Lemma parseMoveCommand_file_witness :
  let m := memoryFileSystem move_example in
  let m' := memoryFileSystem
              (parseMoveCommand "31/10/2026" "/a/f" "/nowhere/g" move_example).1 in
  (parseMoveCommand "31/10/2026" "/a/f" "/nowhere/g" move_example).2 = Done ∧
  m' !! "/nowhere/g"%string = Some (newFile "30/10/2026" "x") ∧
  m' !! "/a/f"%string = None ∧
  (∀ k, k ≠ "/a/f"%string → k ≠ "/nowhere/g"%string → m' !! k = m !! k) ∧
  size m' = size m.
Proof.
  apply (parseMoveCommand_file "31/10/2026" "/a/f" "/nowhere/g" move_example
           (newFile "30/10/2026" "x")); reflexivity.
Defined.

(** X16. After the move of a directory to an absent path the store has
    nothing at the source and nothing under the source prefix. So a move of
    a directory into its own subtree succeeds and loses the whole subtree:
    the destination is absent afterwards as well. *)
Theorem parseMoveCommand_directory_source_gone
    (now src dst : string) (fs : FileSystem) (e : FSEntry) :
  let m := memoryFileSystem fs in
  let sp := normalizePath (currentDirectory fs) src in
  let dp := normalizePath (currentDirectory fs) dst in
  m !! sp = Some e → type e = DIRECTORY → m !! dp = None →
  let result := parseMoveCommand now src dst fs in
  let m' := memoryFileSystem result.1 in
  result.2 = Done ∧
  m' !! sp = None ∧
  (∀ k, CppString.starts_with (dirPrefix sp) k = true → m' !! k = None) ∧
  (CppString.starts_with (dirPrefix sp) dp = true → m' !! dp = None).
Proof.
  intros m sp dp Hsrc Htype Hdst result m'. subst m' result.
  unfold parseMoveCommand. fold sp dp m. rewrite Hsrc, Hdst.
  unfold has_type. rewrite bool_decide_eq_true_2 by done.
  assert (normalizePath (currentDirectory fs) dp = dp) as Hidem
    by apply normalizePath_idempotent.
  unfold addNewEntryInternal. rewrite !Hidem. fold m. rewrite Hdst.
  pose proof (ensureParentDirectoriesExist_true now dp m) as Hok.
  destruct (ensureParentDirectoriesExist now dp m) as [ok m1].
  simpl in Hok. subst ok. simpl.
  rewrite eraseAll_filter_keys.
  assert (∀ k, CppString.starts_with (dirPrefix sp) k = true →
               delete sp (filter (λ kv, ¬ hasPrefix (dirPrefix sp) kv)
                 (insertAll
                    (remapEntry (dirPrefix sp) (dirPrefix dp) <$>
                       filter (isInside sp (dirPrefix sp))
                         (map_to_list (<[dp := newDirectory now]> m1)))
                    (<[dp := newDirectory now]> m1))) !! k = None) as Hgone.
  { intros k Hk. destruct (decide (k = sp)) as [-> | Hne]; [apply lookup_delete_eq |].
    rewrite lookup_delete_ne by done.
    by rewrite lookup_filter_not_hasPrefix, Hk. }
  split; [done |]. split; [apply lookup_delete_eq |]. split; [done |].
  apply Hgone.
Qed.

(** [mv /a /a/b] on the store with [/a] and [/a/f]: nothing of [/a] is left. *)
Lemma parseMoveCommand_directory_source_gone_witness :
  let m' := memoryFileSystem
              (parseMoveCommand "31/10/2026" "/a" "/a/b" move_example).1 in
  (parseMoveCommand "31/10/2026" "/a" "/a/b" move_example).2 = Done ∧
  m' !! "/a"%string = None ∧
  (∀ k, CppString.starts_with "/a/" k = true → m' !! k = None) ∧
  (CppString.starts_with "/a/" "/a/b" = true → m' !! "/a/b"%string = None).
Proof.
  apply (parseMoveCommand_directory_source_gone "31/10/2026" "/a" "/a/b"
           move_example (newDirectory "30/10/2026")); reflexivity.
Defined.

(** X17. Copying a file to an absent path leaves the source as it is and
    stores at the destination an entry with the same kind, content and size
    and with both dates set to the date of the copy; every other entry is
    untouched and the store has one entry more. The parents of the
    destination are neither required nor created. *)
Theorem parseCopyCommand_file
    (now src dst : string) (fs : FileSystem) (e : FSEntry) :
  let m := memoryFileSystem fs in
  let sp := normalizePath (currentDirectory fs) src in
  let dp := normalizePath (currentDirectory fs) dst in
  m !! sp = Some e → type e = FILE → m !! dp = None →
  let result := parseCopyCommand now src dst fs in
  let m' := memoryFileSystem result.1 in
  result.2 = Done ∧
  m' !! sp = Some e ∧
  m' !! dp = Some (mkFSEntry (data e) (sizeInBytes e) now now FILE) ∧
  (∀ k, k ≠ dp → m' !! k = m !! k) ∧
  size m' = S (size m).
Proof.
  intros m sp dp Hsrc Htype Hdst result m'. subst m' result.
  unfold parseCopyCommand. fold sp dp m. rewrite Hsrc, Hdst.
  unfold has_type. rewrite bool_decide_eq_false_2 by congruence. simpl.
  assert (sp ≠ dp) as Hne by (intros Heq; congruence).
  split; [done |]. split; [| split; [| split]].
  - by rewrite lookup_insert_ne.
  - rewrite lookup_insert_eq. unfold freshDates. by rewrite Htype.
  - intros k Hkd. by rewrite lookup_insert_ne.
  - by apply map_size_insert_None.
Qed.

(** [cp /a/f /a/g] on the store with [/a] and [/a/f]. *)
Lemma parseCopyCommand_file_witness :
  let m := memoryFileSystem move_example in
  let m' := memoryFileSystem
              (parseCopyCommand "31/10/2026" "/a/f" "/a/g" move_example).1 in
  (parseCopyCommand "31/10/2026" "/a/f" "/a/g" move_example).2 = Done ∧
  m' !! "/a/f"%string = Some (newFile "30/10/2026" "x") ∧
  m' !! "/a/g"%string = Some (mkFSEntry "x" 1 "31/10/2026" "31/10/2026" FILE) ∧
  (∀ k, k ≠ "/a/g"%string → m' !! k = m !! k) ∧
  size m' = S (size m).
Proof.
  apply (parseCopyCommand_file "31/10/2026" "/a/f" "/a/g" move_example
           (newFile "30/10/2026" "x")); reflexivity.
Defined.

(** ** Loading *)

Section Loading.

Implicit Types (m : Store) (s x r line : string).

Lemma getline_cases d s old :
  (∃ x r, IStream.getline d (IStream.mkIStream s false false) old
            = (IStream.mkIStream r false false, x) ∧
          Spec.split_on d s = x :: Spec.split_on d r) ∨
  (∃ x, IStream.getline d (IStream.mkIStream s false false) old
          = (IStream.mkIStream "" true (CppString.empty x), x) ∧
        Spec.split_on d s = [x]).
Proof.
  unfold IStream.getline. simpl.
  destruct (IStream.read_until d s) as [x [r|]] eqn:E.
  - left. exists x, r. split; [done |].
    by apply read_until_delimiter in E as (H & _ & _).
  - right. exists x. split; [done |]. by apply read_until_eof.
Qed.

Lemma getline_after_eof d buf failed old :
  IStream.getline d (IStream.mkIStream buf true failed) old
    = (IStream.mkIStream buf true true, old).
Proof. reflexivity. Qed.

Lemma field_line_start T r :
  Ascii.eqb (CppString.front T) "#" = false →
  CppString.empty (T +:+ String "|" r)
    || Ascii.eqb (CppString.front (T +:+ String "|" r)) "#" = false.
Proof. destruct T; [done |]. intros H. rewrite append_cons. simpl in *. by rewrite H. Qed.

Lemma loadLine_sixFields T p sz c mo dat m :
  CppString.contains "|" T = false → CppString.contains "|" p = false →
  CppString.contains "|" sz = false → CppString.contains "|" c = false →
  CppString.contains "|" mo = false → CppString.contains LF dat = false →
  Ascii.eqb (CppString.front T) "#" = false →
  loadLine (sixFields T p sz c mo dat) (Some m)
    = (λ size, <[p := mkFSEntry dat size c mo
                         (if String.eqb T "FILE" then FILE else DIRECTORY)]> m)
      <$> stoull sz.
Proof.
  intros HT Hp Hsz Hc Hmo Hdat Hfront. unfold loadLine, sixFields.
  rewrite field_line_start by done. unfold IStream.open.
  do 5 (rewrite getline_field by done; cbn [IStream.failbit]).
  rewrite getline_rest by done. by destruct (stoull sz).
Qed.

Lemma loadLine_fiveFields T p sz c mo m :
  CppString.contains "|" T = false → CppString.contains "|" p = false →
  CppString.contains "|" sz = false → CppString.contains "|" c = false →
  CppString.contains "|" mo = false → mo ≠ EmptyString →
  Ascii.eqb (CppString.front T) "#" = false →
  loadLine (fiveFields T p sz c mo) (Some m)
    = (λ size, <[p := mkFSEntry "" size c mo
                         (if String.eqb T "FILE" then FILE else DIRECTORY)]> m)
      <$> stoull sz.
Proof.
  intros HT Hp Hsz Hc Hmo Hne Hfront. unfold loadLine, fiveFields.
  rewrite field_line_start by done. unfold IStream.open.
  do 4 (rewrite getline_field by done; cbn [IStream.failbit]).
  rewrite getline_rest by done. cbn [IStream.failbit].
  assert (CppString.empty mo = false) as -> by by destruct mo.
  rewrite getline_after_eof. by destruct (stoull sz).
Qed.

Lemma foldl_loadLine_None (lines : list string) :
  foldl (λ a l, loadLine l a) None lines = None.
Proof. induction lines as [|l lines IH]; [done | apply IH]. Qed.

Lemma lines_of_dumpBody_app entries rest :
  Forall dumpable entries →
  lines_of LF (dumpBody entries +:+ rest)
    = (recordLine <$> entries) ++ lines_of LF rest.
Proof.
  induction 1 as [|kv entries Hkv _ IH]; [done |].
  simpl. rewrite dumpRecord_line, !append_assoc.
  rewrite append_cons, append_nil_l.
  rewrite lines_of_line by by apply recordLine_no_newline. by rewrite IH.
Qed.

(** What loading does with a dump followed by more text. *)
Lemma loadText_dumpText_app now entries rest :
  CppString.contains LF now = false → Forall dumpable entries →
  loadText (dumpText now entries +:+ rest)
    = foldl (λ a l, loadLine l a) (Some (insertAll entries ∅)) (lines_of LF rest).
Proof.
  intros Hnow Hall. unfold loadText. rewrite for_each_line_lines.
  rewrite dumpText_body. unfold dumpHeader. rewrite !append_assoc.
  rewrite <- (append_assoc "# Memory File System Dump - " now).
  rewrite (append_cons LF "" _), append_nil_l.
  rewrite lines_of_line by (by rewrite contains_app, Hnow).
  rewrite (append_cons LF "" _), append_nil_l.
  rewrite lines_of_line by done.
  rewrite lines_of_dumpBody_app by done.
  cbn [foldl]. rewrite append_cons, !loadLine_comment.
  rewrite foldl_app. by rewrite loadLines_records.
Qed.

End Loading.

(** X18. A line of a dump file with fewer than four separators is skipped:
    it leaves the store being loaded as it is and does not stop the load. *)
Theorem loadLine_skips_short_line (line : string) (acc : option Store) :
  length (Spec.split_on "|" line) ≤ 4 → loadLine line acc = acc.
Proof.
  intros Hlen. destruct acc as [m|]; [| done]. unfold loadLine.
  destruct (CppString.empty line || Ascii.eqb (CppString.front line) "#"); [done |].
  unfold IStream.open.
  destruct (getline_cases "|" line "") as [(x1 & r1 & -> & Hs) | (x1 & -> & Hs)];
    rewrite Hs in Hlen; cbn [length IStream.failbit] in *;
    [| by destruct x1].
  destruct (getline_cases "|" r1 "") as [(x2 & r2 & -> & Hs2) | (x2 & -> & Hs2)];
    rewrite Hs2 in Hlen; cbn [length IStream.failbit] in *;
    [| by destruct x2].
  destruct (getline_cases "|" r2 "") as [(x3 & r3 & -> & Hs3) | (x3 & -> & Hs3)];
    rewrite Hs3 in Hlen; cbn [length IStream.failbit] in *;
    [| by destruct x3].
  destruct (getline_cases "|" r3 "") as [(x4 & r4 & -> & Hs4) | (x4 & -> & Hs4)];
    rewrite Hs4 in Hlen; cbn [length IStream.failbit] in *;
    [| by destruct x4].
  pose proof (split_on_nonempty "|" r4) as Hne.
  destruct (Spec.split_on "|" r4); [done | simpl in Hlen; lia].
Qed.

Lemma loadLine_skips_short_line_witness :
  loadLine "FILE|/a|7|30/10/2026" (Some ∅) = Some ∅.
Proof.
  apply (loadLine_skips_short_line "FILE|/a|7|30/10/2026" (Some ∅)).
  vm_compute. lia.
Defined.

(** X19. A record with five or six fields is loaded whatever its fields
    hold, provided the size field starts with a number: the type field
    gives a file only when it is exactly [FILE] and a directory for any
    other word, a directory record keeps the data it carries, and a record
    that stops after a non-empty modification date gets empty content. *)
Theorem loadLine_record_fields
    (T p sz c mo dat : string) (size : N) (m : Store) :
  CppString.contains "|" T = false → CppString.contains "|" p = false →
  CppString.contains "|" sz = false → CppString.contains "|" c = false →
  CppString.contains "|" mo = false → CppString.contains LF dat = false →
  Ascii.eqb (CppString.front T) "#" = false →
  stoull sz = Some size →
  loadLine (sixFields T p sz c mo dat) (Some m)
    = Some (<[p := mkFSEntry dat size c mo
                     (if String.eqb T "FILE" then FILE else DIRECTORY)]> m) ∧
  (mo ≠ EmptyString →
   loadLine (fiveFields T p sz c mo) (Some m)
     = Some (<[p := mkFSEntry "" size c mo
                      (if String.eqb T "FILE" then FILE else DIRECTORY)]> m)).
Proof.
  intros HT Hp Hsz Hc Hmo Hdat Hfront Hsize. split.
  - rewrite loadLine_sixFields by done. by rewrite Hsize.
  - intros Hne. rewrite loadLine_fiveFields by done. by rewrite Hsize.
Qed.

(** A directory record with data and a size that is followed by letters,
    and a record without the data field. *)
Lemma loadLine_record_fields_witness :
  loadLine "dir|/d|12kB|yesterday|today|payload" (Some ∅)
    = Some (<["/d"%string := mkFSEntry "payload" 12 "yesterday" "today" DIRECTORY]> ∅) ∧
  ("today"%string ≠ EmptyString →
   loadLine "dir|/d|12kB|yesterday|today" (Some ∅)
     = Some (<["/d"%string := mkFSEntry "" 12 "yesterday" "today" DIRECTORY]> ∅)).
Proof.
  apply (loadLine_record_fields "dir" "/d" "12kB" "yesterday" "today" "payload"
           12 ∅); reflexivity.
Defined.

(** X20. A record whose size field does not start with a number ends the
    load in an uncaught exception, wherever it stands after the records of
    a dump: the command does not return, although the store was cleared
    before the first line was read. *)
Theorem parseLoadCommand_aborts_on_bad_size
    (now T p sz c mo dat after : string)
    (entries : list (string * FSEntry)) (fs : FileSystem) :
  CppString.contains LF now = false → Forall dumpable entries →
  CppString.contains "|" T = false → CppString.contains "|" p = false →
  CppString.contains "|" sz = false → CppString.contains "|" c = false →
  CppString.contains "|" mo = false →
  CppString.contains LF (sixFields T p sz c mo dat) = false →
  Ascii.eqb (CppString.front T) "#" = false →
  stoull sz = None →
  parseLoadCommand
    (Some (dumpText now entries +:+ sixFields T p sz c mo dat +:+ String LF after))
    fs = None.
Proof.
  intros Hnow Hall HT Hp Hsz Hc Hmo Hline Hfront Hsize.
  assert (CppString.contains LF dat = false) as Hdat.
  { unfold sixFields in Hline.
    repeat (rewrite contains_app in Hline; cbn [CppString.contains] in Hline).
    repeat (apply orb_false_iff in Hline as [_ Hline]). done. }
  unfold parseLoadCommand.
  rewrite loadText_dumpText_app by done.
  rewrite lines_of_line by done. cbn [foldl].
  rewrite loadLine_sixFields by done. rewrite Hsize. simpl.
  by rewrite foldl_loadLine_None.
Qed.

(** The dump of the store with [/a] and [/a/f], followed by a record with
    the size [x] and by a good record. *)
Lemma parseLoadCommand_aborts_on_bad_size_witness :
  parseLoadCommand
    (Some (dumpText "31/10/2026" (map_to_list (memoryFileSystem move_example))
           +:+ sixFields "FILE" "/g" "x" "30/10/2026" "30/10/2026" "data"
           +:+ String LF "DIR|/h|0|30/10/2026|30/10/2026|"))
    (mkFS ∅ "/") = None.
Proof.
  apply (parseLoadCommand_aborts_on_bad_size "31/10/2026" "FILE" "/g" "x"
           "30/10/2026" "30/10/2026" "data");
    try reflexivity.
  apply Forall_forall. intros kv Hin.
  assert (Forall dumpable (map_to_list (memoryFileSystem move_example))) as Hall.
  { apply (bool_decide_unpack _). vm_compute. exact I. }
  by eapply Forall_forall in Hall.
Defined.

(** X21. The size field round trips: the decimal digits written for a size
    below [2^64] are read back by [std::stoull] as the same number, and
    they contain neither the field separator nor a newline. *)
Theorem size_field_round_trip (n : N) :
  (n < 2 ^ 64)%N →
  stoull (to_decimal n) = Some n ∧
  CppString.contains "|" (to_decimal n) = false ∧
  CppString.contains LF (to_decimal n) = false.
Proof.
  intros Hn. split; [by apply stoull_to_decimal |].
  split; by apply to_decimal_contains.
Qed.

Lemma size_field_round_trip_witness :
  stoull (to_decimal 18446744073709551615) = Some 18446744073709551615%N ∧
  CppString.contains "|" (to_decimal 18446744073709551615) = false ∧
  CppString.contains LF (to_decimal 18446744073709551615) = false.
Proof. apply (size_field_round_trip 18446744073709551615). reflexivity. Defined.

(** ** Listing, searching and counting *)

Section Listing.

Implicit Types (m : Store) (l : list (string * FSEntry)).

Lemma statsStep_counts l files dirs total :
  let '(files', dirs', _) := foldl statsStep (files, dirs, total) l in
  files' + dirs' = files + dirs + length l.
Proof.
  revert files dirs total. induction l as [|kv l IH]; intros files dirs total.
  - simpl. lia.
  - cbn [foldl]. unfold statsStep at 2. destruct (has_type FILE kv.2).
    + specialize (IH (S files) dirs ((total + sizeInBytes kv.2) mod 2 ^ 64)%N).
      destruct (foldl statsStep _ l) as [[f d] t]. simpl. lia.
    + specialize (IH files (S dirs) total).
      destruct (foldl statsStep _ l) as [[f d] t]. simpl. lia.
Qed.

Lemma count_filter {A} (P : A → Prop) `{!∀ x, Decision (P x)} (l : list A) n :
  foldl (λ count x, if decide (P x) then S count else count) n l
    = n + length (filter P l).
Proof.
  revert n. induction l as [|x l IH]; intros n; simpl; [lia |].
  rewrite IH. destruct (decide (P x)).
  - rewrite filter_cons_True by done. simpl. lia.
  - by rewrite filter_cons_False by done.
Qed.

Lemma starts_with_contains c p s :
  CppString.starts_with p s = true → CppString.contains c p = true →
  CppString.contains c s = true.
Proof.
  intros [r ->]%starts_with_iff Hp. by rewrite contains_app, Hp.
Qed.

Lemma contains_sub_contains c p s :
  contains_sub p s = true → CppString.contains c p = true →
  CppString.contains c s = true.
Proof.
  intros Hsub Hp. induction s as [|a s IH]; simpl in Hsub.
  - rewrite orb_false_r in Hsub. by eapply starts_with_contains.
  - apply orb_true_iff in Hsub as [Hpre | Hsub].
    + by eapply starts_with_contains.
    + simpl. rewrite (IH Hsub). apply orb_true_r.
Qed.

Lemma filter_none {A} (P : A → Prop) `{!∀ x, Decision (P x)} (l : list A) :
  (∀ x, x ∈ l → ¬ P x) → filter P l = [].
Proof.
  induction l as [|x l IH]; intros Hall; [done |].
  rewrite filter_cons_False by (apply Hall, list_elem_of_here).
  apply IH. intros y Hy. apply Hall. by apply elem_of_cons; right.
Qed.

End Listing.

(** X22. In the totals of the statistics every entry counts once, as a file
    or as a directory: the two counts add up to the number of entries. *)
Theorem displaySystemStats_counts (fs : FileSystem) :
  let '(totalFiles, totalDirs, _) := displaySystemStats fs in
  totalFiles + totalDirs = size (memoryFileSystem fs).
Proof.
  unfold displaySystemStats.
  pose proof (statsStep_counts (map_to_list (memoryFileSystem fs)) 0 0 0%N) as H.
  destruct (foldl statsStep _ _) as [[f d] t].
  rewrite length_map_to_list in H. lia.
Qed.

Lemma listDirectory_entries (path : string) (fs : FileSystem) (e : FSEntry) :
  let m := memoryFileSystem fs in
  let target := normalizePath (currentDirectory fs) path in
  m !! target = Some e → type e = DIRECTORY →
  ∃ entries,
    listDirectory path fs = inl entries ∧
    ∀ name e', (name, e') ∈ entries ↔
               CppString.contains "/" name = false ∧
               dirPrefix target +:+ name ≠ target ∧
               m !! (dirPrefix target +:+ name) = Some e'.
Proof.
  intros m target Hl Ht.
  unfold listDirectory. fold target m.
  unfold directoryExists. rewrite Hl.
  unfold has_type. rewrite bool_decide_eq_true_2 by done. simpl.
  eexists. split; [reflexivity |].
  intros name e'. rewrite list_elem_of_fmap. split.
  - intros [[k e0] [[= -> ->]
      [[[Hne Hpre] Hslash] Hin%elem_of_map_to_list]%list_elem_of_filter]].
    simpl in *. rewrite <- (starts_with_inv _ _ Hpre). done.
  - intros (Hslash & Hne & Hk). exists (dirPrefix target +:+ name, e').
    simpl. rewrite drop_app. split; [done |].
    apply list_elem_of_filter. split.
    + split; [split |]; simpl; [done | apply starts_with_app |].
      by rewrite drop_app.
    + by apply elem_of_map_to_list.
Qed.

(** X23. For a path that exists as a directory, the listing holds exactly
    the entries whose key is the directory prefix followed by a name
    without a slash, the directory itself apart, each under that name and
    with its value; and the number of direct children that the info
    command reports is the length of the listing. *)
Theorem listDirectory_direct_children
    (path : string) (fs : FileSystem) (e : FSEntry) :
  let m := memoryFileSystem fs in
  let target := normalizePath (currentDirectory fs) path in
  m !! target = Some e → type e = DIRECTORY →
  ∃ entries,
    listDirectory path fs = inl entries ∧
    parseInfoCommand path fs = Some (e, Some (length entries)) ∧
    ∀ name e', (name, e') ∈ entries ↔
               CppString.contains "/" name = false ∧
               dirPrefix target +:+ name ≠ target ∧
               m !! (dirPrefix target +:+ name) = Some e'.
Proof.
  intros m target Hl Ht.
  destruct (listDirectory_entries path fs e Hl Ht) as (entries & Hlist & Hmem).
  exists entries. split; [done |]. split; [| done].
  unfold listDirectory in Hlist. fold target m in Hlist.
  unfold directoryExists, has_type in Hlist. rewrite Hl in Hlist.
  rewrite bool_decide_eq_true_2 in Hlist by done. simpl in Hlist.
  injection Hlist as <-.
  unfold parseInfoCommand. fold target m. rewrite Hl.
  unfold has_type. rewrite bool_decide_eq_true_2 by done. simpl.
  by rewrite count_filter, length_fmap.
Qed.

(** [ls /a] on the store with [/a] and [/a/f]. *)
Lemma listDirectory_direct_children_witness :
  ∃ entries,
    listDirectory "/a" move_example = inl entries ∧
    parseInfoCommand "/a" move_example
      = Some (newDirectory "30/10/2026", Some (length entries)) ∧
    ∀ name e', (name, e') ∈ entries ↔
               CppString.contains "/" name = false ∧
               "/a/" +:+ name ≠ "/a"%string ∧
               memoryFileSystem move_example !! ("/a/" +:+ name) = Some e'.
Proof.
  apply (listDirectory_direct_children "/a" move_example
           (newDirectory "30/10/2026")); reflexivity.
Defined.

(** X24. The search compares the pattern with the file name part of each
    key only, so a pattern that contains a slash finds nothing. *)
Theorem parseSearchCommand_slash_finds_nothing
    (pattern : string) (fs : FileSystem) :
  CppString.contains "/" pattern = true → parseSearchCommand pattern fs = [].
Proof.
  intros Hslash. unfold parseSearchCommand.
  rewrite filter_none; [done |]. intros [k e] _ Hsub. simpl in Hsub.
  pose proof (contains_sub_contains "/" _ _ Hsub Hslash) as Hname.
  unfold getFilenameFromPath in Hname.
  destruct (CppString.find_last_of "/" k) as [i|] eqn:E.
  - apply find_last_of_Some in E as [_ Hfree]. congruence.
  - apply find_last_of_None in E. congruence.
Qed.

(** [search a/f] on the store with [/a] and [/a/f]. *)
Lemma parseSearchCommand_slash_finds_nothing_witness :
  parseSearchCommand "a/f" move_example = [].
Proof. apply (parseSearchCommand_slash_finds_nothing "a/f"). reflexivity. Defined.

(** ** What every reachable state satisfies *)

(** X25. In every reachable state the current directory is a canonical
    path: it starts as [/] and is only ever set to [/] or to a result of
    [normalizePath]. *)
Theorem currentDirectory_canonical (fs : FileSystem) :
  reachable fs → Spec.canonical (currentDirectory fs) = true.
Proof.
  induction 1 as [now | now c fs fs' _ IH Hstep]; [done |].
  destruct c; simpl in Hstep;
    unfold addNewFile, addNewDirectory, removeFile, removeDirectory in Hstep.
  - injection Hstep as <-. by rewrite addNewEntryInternal_cwd.
  - injection Hstep as <-. by rewrite addNewEntryInternal_cwd.
  - injection Hstep as <-. by rewrite writeContentToFile_cwd.
  - injection Hstep as <-. by rewrite removeEntryInternal_cwd.
  - injection Hstep as <-. by rewrite removeEntryInternal_cwd.
  - injection Hstep as <-. by rewrite parseMoveCommand_cwd.
  - injection Hstep as <-. by rewrite parseCopyCommand_cwd.
  - injection Hstep as <-. unfold parseCdCommand.
    destruct (String.eqb _ "/"); [done |].
    destruct (directoryExists _ _); simpl; [| done].
    apply normalizePath_is_canonical.
  - destruct (parseLoadCommand file fs) as [[fs1 o]|] eqn:Hload; [| done].
    injection Hstep as <-. apply parseLoadCommand_cwd in Hload. by rewrite Hload.
Qed.

Section Invariant.

Implicit Types (m : Store) (k path : string) (e : FSEntry) (fs : FileSystem).
















End Invariant.



(** ** Relative paths *)

Section RelativePaths.

Implicit Types (s seg name : string) (segs : list string).

Lemma joined_app segs1 segs2 : joined (segs1 ++ segs2) = joined segs1 +:+ joined segs2.
Proof.
  induction segs1 as [|seg segs1 IH]; [done |].
  simpl. rewrite IH. by rewrite !append_assoc.
Qed.

Lemma split_on_joined_free seg segs :
  Forall (λ s, CppString.contains "/" s = false) (seg :: segs) →
  Spec.split_on "/" (seg +:+ joined segs) = seg :: segs.
Proof.
  revert seg. induction segs as [|seg' segs IH]; intros seg Hall.
  - apply Forall_cons in Hall as [Hs _].
    simpl. rewrite append_empty_r. by apply split_on_single.
  - apply Forall_cons in Hall as [Hs Hall].
    change (joined (seg' :: segs)) with (String "/" (seg' +:+ joined segs)).
    rewrite split_on_app by done. by rewrite IH.
Qed.

Lemma retain_all segs kept :
  Forall retained_segment segs → Spec.retain segs kept = kept ++ segs.
Proof.
  intros Hall. revert kept.
  induction Hall as [|seg segs (_ & H0 & H1 & H2) _ IH]; intros kept; simpl.
  - by rewrite List.app_nil_r.
  - rewrite H0, H1, H2. simpl. rewrite IH. by rewrite <- List.app_assoc.
Qed.

Lemma retained_free segs :
  Forall retained_segment segs →
  Forall (λ s, CppString.contains "/" s = false) segs.
Proof. intros H. eapply Forall_impl; [exact H |]. by intros s (Hs & _). Qed.

Lemma joined_not_root seg segs :
  retained_segment seg → String.eqb (joined (seg :: segs)) "/" = false.
Proof.
  intros (_ & Hne & _). apply String.eqb_neq. intros Heq.
  apply (f_equal String.length) in Heq. simpl in Heq.
  rewrite !append_length in Heq. destruct seg; [done | simpl in Heq; lia].
Qed.

(** Resolving a relative path made of slash-free segments against a
    canonical directory. *)
Lemma normalize_relative segs extra :
  Forall retained_segment segs →
  Forall (λ s, CppString.contains "/" s = false) extra →
  extra ≠ [] →
  CppString.starts_with "/" (CppString.drop 1 (joined extra)) = false →
  Spec.normalize (CppString.drop 1 (joined extra)) (Spec.reassemble segs)
    = Spec.reassemble (Spec.retain extra segs).
Proof.
  intros Hsegs Hextra Hne Hrel. unfold Spec.normalize, Spec.resolve.
  rewrite Hrel. f_equal.
  destruct extra as [|x extra]; [done |].
  change (CppString.drop 1 (joined (x :: extra))) with (x +:+ joined extra).
  destruct segs as [|seg segs].
  - change (String.eqb (Spec.reassemble []) "/") with true. cbv iota.
    change (Spec.reassemble [] +:+ x +:+ joined extra)
      with ("" +:+ String "/" (x +:+ joined extra)).
    rewrite split_on_app by done. by rewrite split_on_joined_free.
  - apply Forall_cons in Hsegs as Hsegs'. destruct Hsegs' as [Hseg _].
    change (Spec.reassemble (seg :: segs)) with (joined (seg :: segs)).
    rewrite (joined_not_root seg segs Hseg).
    replace (joined (seg :: segs) +:+ "/" +:+ x +:+ joined extra)
      with (joined ((seg :: segs) ++ x :: extra))
      by (rewrite joined_app; simpl; by rewrite !append_assoc).
    change (joined ((seg :: segs) ++ x :: extra))
      with (String "/" (seg +:+ joined (segs ++ x :: extra))).
    change (String "/" (seg +:+ joined (segs ++ x :: extra)))
      with ("" +:+ String "/" (seg +:+ joined (segs ++ x :: extra))).
    rewrite split_on_app by done.
    rewrite split_on_joined_free.
    + change (Spec.retain (EmptyString :: ?l) ?k) with (Spec.retain l k).
      change (seg :: segs ++ x :: extra) with ((seg :: segs) ++ x :: extra).
      rewrite retain_app. by rewrite (retain_all (seg :: segs)).
    + change (seg :: segs ++ x :: extra) with ((seg :: segs) ++ x :: extra).
      apply Forall_app. split; [by apply retained_free | done].
Qed.

Lemma find_last_of_app c a b :
  CppString.contains c b = false →
  CppString.find_last_of c (a +:+ String c b) = Some (String.length a).
Proof.
  intros Hb. apply find_last_of_None in Hb.
  induction a as [|x a IH].
  - rewrite append_nil_l. simpl. by rewrite Hb, ascii_eqb_refl.
  - rewrite append_cons. simpl. by rewrite IH.
Qed.

Lemma take_app a b : CppString.take (String.length a) (a +:+ b) = a.
Proof.
  induction a as [|x a IH]; [by destruct b |].
  rewrite append_cons. simpl. by rewrite IH.
Qed.

Lemma getDirectoryFromPath_joined segs seg :
  CppString.contains "/" seg = false →
  getDirectoryFromPath (joined (segs ++ [seg])) = joined segs.
Proof.
  intros Hseg. rewrite joined_app. simpl. rewrite append_empty_r.
  rewrite append_cons, append_nil_l.
  unfold getDirectoryFromPath. rewrite find_last_of_app by done.
  apply take_app.
Qed.

End RelativePaths.

(** X28. From a canonical current directory the path [..] resolves to the
    directory part of the current directory, and to [/] when that part is
    empty, which is the case at the root and directly under it. *)
Theorem normalizePath_parent (cwd : string) :
  Spec.canonical cwd = true →
  normalizePath cwd ".."
    = if String.eqb (getDirectoryFromPath cwd) "" then "/"%string
      else getDirectoryFromPath cwd.
Proof.
  intros (segs & Hsegs & ->)%canonical_retained.
  rewrite normalizePath_normalize.
  change ".."%string with (CppString.drop 1 (joined [".."%string])).
  rewrite normalize_relative; [| done | by repeat constructor | done | done].
  simpl Spec.retain.
  induction segs as [|last init _] using rev_ind; [done |].
  rewrite removelast_last.
  assert (joined (init ++ [last]) = Spec.reassemble (init ++ [last])) as <-
    by by destruct init.
  rewrite getDirectoryFromPath_joined.
  - destruct init as [|seg init]; [done |].
    apply Forall_app in Hsegs as [Hinit _].
    apply Forall_cons in Hinit as [(_ & Hne & _) _].
    assert (String.eqb (joined (seg :: init)) "" = false) as ->; [| done].
    apply String.eqb_neq. intros Heq. apply (f_equal String.length) in Heq.
    simpl in Heq. rewrite !append_length in Heq. done.
  - apply Forall_app in Hsegs as [_ Hlast].
    by apply Forall_cons in Hlast as [(H & _) _].
Qed.

Lemma normalizePath_parent_witness :
  normalizePath "/a/b" ".."
    = if String.eqb (getDirectoryFromPath "/a/b") "" then "/"%string
      else getDirectoryFromPath "/a/b".
Proof. apply (normalizePath_parent "/a/b"). reflexivity. Defined.

Lemma normalizePath_child_of (cwd name : string) :
  Spec.canonical cwd = true → retained_segment name →
  normalizePath cwd name = dirPrefix cwd +:+ name.
Proof.
  intros (segs & Hsegs & ->)%canonical_retained Hname.
  pose proof Hname as (Hfree & Hne & _).
  rewrite normalizePath_normalize.
  assert (name = CppString.drop 1 (joined [name])) as Hdrop
    by (simpl; by rewrite append_empty_r).
  rewrite Hdrop at 1.
  rewrite normalize_relative; [| done | by repeat constructor | done |].
  - rewrite (retain_all [name]) by (constructor; [exact Hname | constructor]).
    destruct segs as [|seg segs]; [simpl; by rewrite append_empty_r |].
    apply Forall_cons in Hsegs as [Hseg _].
    unfold dirPrefix.
    change (Spec.reassemble (seg :: segs)) with (joined (seg :: segs)).
    rewrite (joined_not_root seg segs Hseg).
    change (Spec.reassemble ((seg :: segs) ++ [name]))
      with (joined ((seg :: segs) ++ [name])).
    rewrite joined_app. simpl. by rewrite !append_assoc, append_empty_r.
  - rewrite <- Hdrop. destruct name as [|c name]; [done |].
    cbn [CppString.contains CppString.starts_with] in *.
    apply orb_false_iff in Hfree as [Hc _].
    by rewrite Ascii.eqb_sym, Hc.
Qed.

Lemma drop_past_separator (a b : string) (c : ascii) :
  CppString.drop (S (String.length a)) (a +:+ String c b) = b.
Proof.
  induction a as [|x a IH]; [rewrite append_nil_l; by destruct b |].
  rewrite append_cons. exact IH.
Qed.

(** X29. A name that is a single path segment (not empty, not [.] or [..],
    without a slash) resolves, from a canonical current directory, to the
    prefix of that directory followed by the name. The file name part of
    the result is the name, and its directory part is the current
    directory, or the empty string when the current directory is the
    root. *)
Theorem normalizePath_child (cwd name : string) :
  Spec.canonical cwd = true → retained_segment name →
  let target := normalizePath cwd name in
  target = dirPrefix cwd +:+ name ∧
  getFilenameFromPath target = name ∧
  getDirectoryFromPath target
    = if String.eqb cwd "/" then EmptyString else cwd.
Proof.
  intros Hcwd Hname target. subst target.
  rewrite (normalizePath_child_of cwd name Hcwd Hname).
  split; [done |]. destruct Hname as (Hfree & _).
  assert (∃ a, dirPrefix cwd +:+ name = a +:+ String "/" name ∧
               a = if String.eqb cwd "/" then EmptyString else cwd)
    as (a & -> & <-).
  { unfold dirPrefix. destruct (String.eqb cwd "/").
    - by exists EmptyString.
    - exists cwd. split; [| done].
      by rewrite append_assoc, append_cons, append_nil_l. }
  unfold getFilenameFromPath, getDirectoryFromPath.
  rewrite find_last_of_app by done.
  split; [apply drop_past_separator | apply take_app].
Qed.

Lemma normalizePath_child_witness :
  normalizePath "/a/b" "notes.txt" = dirPrefix "/a/b" +:+ "notes.txt" ∧
  getFilenameFromPath (normalizePath "/a/b" "notes.txt") = "notes.txt"%string ∧
  getDirectoryFromPath (normalizePath "/a/b" "notes.txt")
    = if String.eqb "/a/b" "/" then EmptyString else "/a/b"%string.
Proof. apply (normalizePath_child "/a/b" "notes.txt"); by repeat split. Defined.

Lemma child_ne_directory (dir name : string) :
  retained_segment name → dirPrefix dir +:+ name ≠ dir.
Proof.
  intros (_ & Hne & _) Heq. apply (f_equal String.length) in Heq.
  rewrite append_length in Heq. unfold dirPrefix in Heq.
  destruct (String.eqb dir "/") eqn:Er.
  - apply String.eqb_eq in Er. rewrite Er in Heq.
    destruct name; [done | simpl in Heq; lia].
  - rewrite append_length in Heq. simpl in Heq. lia.
Qed.

(** X30. When the current directory is a directory of the store, creating
    an entry under a single-segment name that is free makes the listing of
    the current directory show it: the listing holds the name with the new
    empty entry. *)
Theorem addNewEntryInternal_then_list
    (now name : string) (kind : bool) (fs : FileSystem) :
  let cwd := currentDirectory fs in
  Spec.canonical cwd = true → retained_segment name →
  directoryExists cwd (memoryFileSystem fs) = true →
  memoryFileSystem fs !! (dirPrefix cwd +:+ name) = None →
  ∃ entries,
    listDirectory cwd (addNewEntryInternal now name kind fs).1 = inl entries ∧
    (name, mkFSEntry "" 0 now now (if kind then DIRECTORY else FILE)) ∈ entries.
Proof.
  intros cwd Hcwd Hname Hdir Habsent.
  pose proof (normalizePath_child_of cwd name Hcwd Hname) as Hchild.
  assert (normalizePath cwd cwd = cwd) as Hfix.
  { apply canonical_retained in Hcwd as (segs & Hsegs & Heq). rewrite Heq.
    rewrite normalizePath_normalize. by apply normalize_reassemble. }
  set (fs' := (addNewEntryInternal now name kind fs).1).
  assert (memoryFileSystem fs' !! (dirPrefix cwd +:+ name)
          = Some (mkFSEntry "" 0 now now (if kind then DIRECTORY else FILE)) ∧
          directoryExists cwd (memoryFileSystem fs') = true) as [Hnew Hdir'].
  { subst fs'. unfold addNewEntryInternal. fold cwd. rewrite Hchild, Habsent.
    pose proof (ensureParentDirectoriesExist_true now (dirPrefix cwd +:+ name)
                  (memoryFileSystem fs)) as Hok.
    apply directoryExists_true in Hdir as (e & He & Ht).
    pose proof (ensureParents_keeps (S (String.length (dirPrefix cwd +:+ name)))
                  now (dirPrefix cwd +:+ name) (memoryFileSystem fs) cwd e He)
      as (e' & He' & Hsame).
    fold (ensureParentDirectoriesExist now (dirPrefix cwd +:+ name)
            (memoryFileSystem fs)) in He'.
    destruct (ensureParentDirectoriesExist now _ _) as [ok m1].
    simpl in Hok, He'. subst ok. simpl. split; [apply lookup_insert_eq |].
    apply directoryExists_true. exists e. rewrite (Hsame Ht) in He'.
    split; [| done]. rewrite lookup_insert_ne; [done |].
    by apply child_ne_directory. }
  apply directoryExists_true in Hdir' as (e & He & Ht).
  assert (currentDirectory fs' = cwd) as Hcwd' by apply addNewEntryInternal_cwd.
  destruct (listDirectory_entries cwd fs' e) as (entries & Hlist & Hmem).
  { by rewrite Hcwd', Hfix. }
  { done. }
  exists entries. split; [done |]. apply Hmem.
  rewrite Hcwd', Hfix. pose proof Hname as (Hfree & _).
  split; [done |]. split; [| done]. by apply child_ne_directory.
Qed.

(** [mkdir docs] in the root of the store with [/a] and [/a/f]. *)
Lemma addNewEntryInternal_then_list_witness :
  ∃ entries,
    listDirectory "/" (addNewEntryInternal "31/10/2026" "docs" true move_example).1
      = inl entries ∧
    ("docs"%string, mkFSEntry "" 0 "31/10/2026" "31/10/2026" DIRECTORY) ∈ entries.
Proof.
  apply (addNewEntryInternal_then_list "31/10/2026" "docs" true move_example);
    [reflexivity | by repeat split | reflexivity | reflexivity].
Defined.

(** ** Reachable examples *)

Lemma changed_directory_example_reachable : reachable changed_directory_example.
Proof.
  eapply (reachable_step "30/10/2026" (Cd "a")); [| reflexivity].
  eapply (reachable_step "30/10/2026" (Mkdir "/a")); [| reflexivity].
  apply reachable_init.
Defined.

(** After [mkdir /a] and [cd a] the current directory is [/a]. *)
Lemma currentDirectory_canonical_witness :
  Spec.canonical (currentDirectory changed_directory_example) = true.
Proof.
  apply (currentDirectory_canonical changed_directory_example).
  exact changed_directory_example_reachable.
Defined.



